(** * photo-sorter: a shallow embedding of [main.py]

    The program scans a directory for JPG files, reads the EXIF DateTime of
    every file, sorts the (path, unix) pairs by time stamp and cuts the sorted
    sequence into groups wherever two neighbours are further apart than
    [args.threshold] seconds.

    Python values are modelled as follows: [int] is [Z] (unbounded), [str] is
    [string], a list and a [deque] are [list], a tuple [(path, unix)] is a
    pair.  Code that can raise is written in a small exception monad
    [result]; an index that is out of range raises [IndexError] exactly as
    the Python subscript does, negative indices count from the end. *)

From Stdlib Require Import String Ascii ZArith Bool Lia List.
From Stdlib Require Import Sorted Permutation.
Import ListNotations.

Local Open Scope string_scope.
Local Open Scope list_scope.
Local Open Scope Z_scope.

(* ------------------------------------------------------------------ *)
(** ** Python runtime: exceptions, subscripts, [range], [for] *)

Module Py.

(** The exception classes this program can meet.  [BaseException]
    subclasses that are no [Exception] (KeyboardInterrupt, SystemExit) are
    outside the model. *)
Inductive exn : Type :=
| IndexError
| TypeError
| ValueError
| OverflowError
| OSError
| FileNotFoundError
| UnidentifiedImageError
| UnboundLocalError
| NameError.

Inductive result (A : Type) : Type :=
| Ok (a : A)
| Raise (e : exn).
Arguments Ok {A} a.
Arguments Raise {A} e.

Definition bind {A B} (c : result A) (k : A -> result B) : result B :=
  match c with
  | Ok a => k a
  | Raise e => Raise e
  end.

(** [len(l)] *)
Definition len {A} (l : list A) : Z := Z.of_nat (length l).

(** The position a subscript [i] denotes in a sequence of length [n]:
    negative subscripts count from the end. *)
Definition norm_index (n i : Z) : Z := if i <? 0 then i + n else i.

(** [l[i]] *)
Definition getitem {A} (l : list A) (i : Z) : result A :=
  let j := norm_index (len l) i in
  if (0 <=? j) && (j <? len l) then
    match nth_error l (Z.to_nat j) with
    | Some a => Ok a
    | None => Raise IndexError
    end
  else Raise IndexError.

Fixpoint update {A} (l : list A) (n : nat) (v : A) : list A :=
  match l, n with
  | [], _ => []
  | _ :: l', O => v :: l'
  | a :: l', S n' => a :: update l' n' v
  end.

(** [l[i] = v] *)
Definition setitem {A} (l : list A) (i : Z) (v : A) : result (list A) :=
  let j := norm_index (len l) i in
  if (0 <=? j) && (j <? len l) then Ok (update l (Z.to_nat j) v)
  else Raise IndexError.

(** [range(n)]: empty when [n <= 0]. *)
Definition range (n : Z) : list Z := map Z.of_nat (seq 0 (Z.to_nat n)).

(** [for x in xs: s = body(x, s)], stopping at the first exception. *)
Fixpoint for_each {A S} (xs : list A) (body : A -> S -> result S) (s : S)
  : result S :=
  match xs with
  | [] => Ok s
  | x :: xs' => bind (body x s) (for_each xs' body)
  end.

(** [deque.popleft()] *)
Definition popleft {A} (l : list A) : result (A * list A) :=
  match l with
  | [] => Raise IndexError
  | a :: l' => Ok (a, l')
  end.

End Py.

Import Py.

Notation "x <- c ;; k" := (bind c (fun x => k))
  (at level 61, c at next level, right associativity).
Notation "' pat <- c ;; k" := (bind c (fun x => match x with pat => k end))
  (at level 61, pat pattern, c at next level, right associativity).

(* ------------------------------------------------------------------ *)
(** ** Command line arguments *)

(** The global [args].  [args_threshold] is the integer the comparison in
    [sortPhotos] needs (the default [3] is one; a value typed on the command
    line stays a [str] in the source and is outside this model);
    [args_export] is [None] when [-e] is not given. *)
Record Args : Type := mkArgs {
  args_path : string;
  args_verbose : Z;
  args_threshold : Z;
  args_package : bool;
  args_export : option string
}.

(** A (path, unix) tuple as [getTimeShot] returns it. *)
Definition record : Type := (string * Z)%type.

(* ------------------------------------------------------------------ *)
(** ** [getTimeShot], [getTimeShotList] *)

(** What the libraries answer for the files on disk.
    [open_getexif p] is [Image.open(p).getexif()], the tag table of the
    image or the exception PIL raises; a table maps a tag number to the
    string stored under it, [None] when the tag is absent.
    [strptime_timestamp s] is
    [int(datetime.datetime.strptime(s, '%Y:%m:%d %H:%M:%S').timestamp())]. *)
Record World : Type := mkWorld {
  open_getexif : string -> result (Z -> option string);
  strptime_timestamp : string -> result Z
}.

(** The [try] block of [getTimeShot].  [strptime] applied to [None] raises
    [TypeError]. *)
Definition getTimeShot_try (w : World) (path : string) : result Z :=
  timeString <- open_getexif w path ;;
  let timeString := timeString 306 in
  match timeString with
  | None => Raise TypeError
  | Some s => strptime_timestamp w s
  end.

(** The record the two [except] clauses, in the order of the source, lead
    to in a process in which the handlers can write their warning.  The
    call with the handlers' own steps is [getTimeShot_run] below. *)
Definition getTimeShot (w : World) (path : string) : record :=
  match getTimeShot_try w path with
  | Ok unix => (path, unix)
  | Raise UnidentifiedImageError => (path, 1)
  | Raise _ => (path, 0)
  end.

(** The records the iterator of [Pool.imap] yields, in the order of its
    arguments, for a batch with at least one file.  The pool is local to
    [getTimeShotList]; for a batch without files the iterator yields
    nothing and does not come to an end either, so the list below is what
    was yielded, not a sign that the iteration stopped. *)
Definition getTimeShotList (w : World) (filenames : list string)
  : list record :=
  map (getTimeShot w) filenames.

(** [logger.warning(e)].  The global [logger] is assigned under the
    [__main__] guard only: it is bound in the main process and in a worker
    that was forked from it, and unbound in a worker that imported the
    module afresh (start methods spawn and forkserver), where reading it
    raises [NameError]. *)
Definition logger_warning (logger_bound : bool) : result unit :=
  if logger_bound then Ok tt else Raise NameError.

(** One call of [getTimeShot] with the steps of its handlers: the first
    handler logs and takes 1, the second prints the type of the exception
    (to the standard output, not modelled), logs and takes 0. *)
Definition getTimeShot_run (logger_bound : bool) (w : World)
    (path : string) : result record :=
  unix <-
    match getTimeShot_try w path with
    | Ok unix => Ok unix
    | Raise UnidentifiedImageError =>
        _ <- logger_warning logger_bound ;; Ok 1
    | Raise _ =>
        _ <- logger_warning logger_bound ;; Ok 0
    end ;;
  Ok (path, unix).

(* ------------------------------------------------------------------ *)
(** ** [sorted(timeList, key=itemgetter(1))] *)

(** Python's [sorted] is stable.  [insert_by_unix x l] puts [x] in front of
    the first element whose key is not smaller, so a record that came
    earlier stays in front of later records with the same key. *)
Fixpoint insert_by_unix (x : record) (l : list record) : list record :=
  match l with
  | [] => [x]
  | y :: l' =>
      if snd x <=? snd y then x :: y :: l' else y :: insert_by_unix x l'
  end.

Definition sorted (timeList : list record) : list record :=
  fold_right insert_by_unix [] timeList.

(* ------------------------------------------------------------------ *)
(** ** [sortPhotos] *)

(** Body of the first loop: one comparison of the neighbours [n], [n+1]. *)
Definition count_step (args : Args) (timeList : list record)
    (n : Z) (countList : list Z) : result (list Z) :=
  b <- getitem timeList (n + 1) ;;
  a <- getitem timeList n ;;
  let diffTime := snd b - snd a in
  if diffTime <=? args_threshold args then
    c <- getitem countList (-1) ;;
    setitem countList (-1) (c + 1)
  else
    Ok (countList ++ [1]).

(** Body of the inner loop of the second phase:
    [group.append(l.popleft()[0])]. *)
Definition group_step (_ : Z) (st : list string * list record)
  : result (list string * list record) :=
  let '(group, l) := st in
  '(x, l') <- popleft l ;;
  Ok (group ++ [fst x], l').

(** Body of the outer loop of the second phase. *)
Definition photos_step (count : Z) (st : list (list string) * list record)
  : result (list (list string) * list record) :=
  let '(photosList, l) := st in
  '(group, l') <- for_each (range count) group_step ([], l) ;;
  Ok (photosList ++ [group], l').

Definition sortPhotos (args : Args) (timeList : list record)
  : result (list (list string)) :=
  countList <-
    for_each (range (len timeList - 1)) (count_step args timeList) [1] ;;
  '(photosList, _) <- for_each countList photos_step ([], timeList) ;;
  Ok photosList.

(* ------------------------------------------------------------------ *)
(** ** [writeResults], [exportResult] *)

(** The files written so far, newest first.  A report is kept as the list
    of groups it was written from, one line a group. *)
Definition Files : Type := list (string * list (list string)).

(** [open(path, 'w')] succeeds on the paths [can_write] accepts; a failed
    [open] leaves the disk as it was. *)
Definition writeResults (can_write : string -> bool)
    (path : string) (grouped : list (list string)) (fs : Files)
  : result Files :=
  if can_write path then Ok ((path, grouped) :: fs) else Raise OSError.

Definition os_sep : string := "/".

(** [s[i]] on a [str]: a string of one character. *)
Definition str_getitem (s : string) (i : Z) : result string :=
  c <- getitem (list_ascii_of_string s) i ;;
  Ok (String c EmptyString).

(** Reading a local variable: [None] is a name that is not bound yet. *)
Definition load_fast (v : option string) : result string :=
  match v with
  | Some s => Ok s
  | None => Raise UnboundLocalError
  end.

(** [path] is a local variable of [exportResult] (the function assigns it),
    unbound on entry.  The handler of the bare [except] reads it before any
    assignment. *)
Definition exportResult (can_write : string -> bool) (args : Args)
    (grouped : list (list string)) (fs : Files) : result Files :=
  let path : option string := None in
  match args_export args with
  | None =>
      c <- str_getitem (args_path args) (-1) ;;
      let path :=
        if negb (c =? os_sep)%string
        then (args_path args ++ os_sep ++ "result.txt")%string
        else (args_path args ++ "result.txt")%string in
      writeResults can_write path grouped fs
  | Some e =>
      match writeResults can_write e grouped fs with
      | Ok fs' => Ok fs'
      | Raise _ =>
          p <- load_fast path ;;
          let path :=
            if negb (p =? os_sep)%string
            then (args_path args ++ os_sep ++ "result.txt")%string
            else (args_path args ++ "result.txt")%string in
          writeResults can_write path grouped fs
      end
  end.

(** The path the help text of [-e] promises: [result.txt] under
    [args.path], as the branch without [-e] computes it. *)
Definition default_path (args : Args) : result string :=
  c <- str_getitem (args_path args) (-1) ;;
  Ok (if negb (c =? os_sep)%string
      then (args_path args ++ os_sep ++ "result.txt")%string
      else (args_path args ++ "result.txt")%string).

(* ------------------------------------------------------------------ *)
(** ** Specification-side definitions *)

(** The three classifications of a file the design document names. *)
Inductive TimestampValue : Type :=
| Known (epochSeconds : Z)
| Unreadable
| Unparsable.

(** How [getTimeShot] classifies a file: [Unreadable] when PIL does not
    recognise an image, [Unparsable] on every other exception. *)
Definition classify (w : World) (path : string) : TimestampValue :=
  match getTimeShot_try w path with
  | Ok unix => Known unix
  | Raise UnidentifiedImageError => Unreadable
  | Raise _ => Unparsable
  end.

(** The integer [getTimeShot] stores for a classification. *)
Definition unix_of (t : TimestampValue) : Z :=
  match t with
  | Known e => e
  | Unreadable => 1
  | Unparsable => 0
  end.

Definition is_sentinel (t : TimestampValue) : bool :=
  match t with
  | Known _ => false
  | _ => true
  end.

(** [diffTime] of two neighbours, [a] before [b]. *)
Definition delta (a b : record) : Z := snd b - snd a.

(** The groups of [r :: rest] by one pass from the left; [cur] holds the
    paths already in the open group. *)
Fixpoint clusters (t : Z) (cur : list string) (r : record)
    (rest : list record) : list (list string) :=
  match rest with
  | [] => [cur ++ [fst r]]
  | r' :: rest' =>
      if delta r r' <=? t
      then clusters t (cur ++ [fst r]) r' rest'
      else (cur ++ [fst r]) :: clusters t [] r' rest'
  end.

(** The sizes of the groups of [r :: rest]; [k] counts the open group. *)
Fixpoint runs (t : Z) (k : Z) (r : record) (rest : list record) : list Z :=
  match rest with
  | [] => [k]
  | r' :: rest' =>
      if delta r r' <=? t
      then runs t (k + 1) r' rest'
      else k :: runs t 1 r' rest'
  end.

(** The number of neighbours in [r :: rest] that are more than [t] apart. *)
Fixpoint gaps (t : Z) (r : record) (rest : list record) : nat :=
  match rest with
  | [] => O
  | r' :: rest' =>
      if delta r r' <=? t then gaps t r' rest' else S (gaps t r' rest')
  end.

(** The neighbours of a sequence: every element paired with the next. *)
Definition neighbours (l : list record) : list (record * record) :=
  combine l (tl l).

(** The number of neighbours whose time difference strictly exceeds [t]. *)
Definition wide_gaps (t : Z) (l : list record) : nat :=
  length (filter (fun ab => t <? delta (fst ab) (snd ab)) (neighbours l)).

(** Every two neighbours of [l] are at most [t] apart. *)
Fixpoint chained (t : Z) (l : list record) : Prop :=
  match l with
  | [] => True
  | a :: l' =>
      match l' with
      | [] => True
      | b :: _ => delta a b <= t /\ chained t l'
      end
  end.

(** Ascending by time stamp, the order [sorted] establishes. *)
Definition ascending (l : list record) : Prop :=
  StronglySorted (fun a b => snd a <= snd b) l.

(** A file without a usable time stamp or taken at epoch 0. *)
Definition undated (w : World) (p : string) : Prop :=
  is_sentinel (classify w p) = true \/ classify w p = Known 0.

(** A record whose time stamp is one of the two fallback integers. *)
Definition low (r : record) : bool := (0 <=? snd r) && (snd r <=? 1).

(** A directory for the examples: a text file with a [.jpg] name, a name
    without a file, an image without EXIF data, an image stamped with the
    start of the epoch, and images of a burst.  Times are read as UTC. *)
Definition exif_with (s : string) : Z -> option string :=
  fun tag => if tag =? 306 then Some s else None.

Definition sample_world : World :=
  mkWorld
    (fun p =>
       if (p =? "notes.jpg")%string then Raise UnidentifiedImageError
       else if (p =? "missing.jpg")%string then Raise FileNotFoundError
       else if (p =? "noexif.jpg")%string then Ok (fun _ => None)
       else if (p =? "broken.jpg")%string then Ok (exif_with "yesterday")
       else if (p =? "epoch.jpg")%string
            then Ok (exif_with "1970:01:01 00:00:00")
       else if (p =? "epoch1.jpg")%string
            then Ok (exif_with "1970:01:01 00:00:01")
       else if (p =? "b0.jpg")%string then Ok (exif_with "1970:01:01 00:16:40")
       else if (p =? "b1.jpg")%string then Ok (exif_with "1970:01:01 00:16:41")
       else if (p =? "b2.jpg")%string then Ok (exif_with "1970:01:01 00:16:50")
       else if (p =? "b3.jpg")%string then Ok (exif_with "1970:01:01 00:16:51")
       else if (p =? "b4.jpg")%string then Ok (exif_with "1970:01:01 00:16:52")
       else Raise FileNotFoundError)
    (fun s =>
       if (s =? "1970:01:01 00:00:00")%string then Ok 0
       else if (s =? "1970:01:01 00:00:01")%string then Ok 1
       else if (s =? "1970:01:01 00:16:40")%string then Ok 1000
       else if (s =? "1970:01:01 00:16:41")%string then Ok 1001
       else if (s =? "1970:01:01 00:16:50")%string then Ok 1010
       else if (s =? "1970:01:01 00:16:51")%string then Ok 1011
       else if (s =? "1970:01:01 00:16:52")%string then Ok 1012
       else Raise ValueError).

(** The same directory after the EXIF data of [epoch.jpg] was stripped. *)
Definition stripped_world : World :=
  mkWorld
    (fun p =>
       if (p =? "epoch.jpg")%string then Ok (fun _ => None)
       else open_getexif sample_world p)
    (strptime_timestamp sample_world).

Definition with_threshold (t : Z) : Args :=
  mkArgs "photos" 0 t false None.

Definition with_export (dir out : string) : Args :=
  mkArgs dir 0 3 false (Some out).

(* ------------------------------------------------------------------ *)
(** ** [setupLogger] *)

(** The three logging levels [setupLogger] chooses from. *)
Inductive Level : Type := WARNING | INFO | DEBUG.

Definition levels : list Level := [WARNING; INFO; DEBUG].

(** [levels[min(args.verbose, len(levels) - 1)]], the level the logger is
    set to; the handler and the formatter do not reach any value. *)
Definition setupLogger (args : Args) : result Level :=
  getitem levels (Z.min (args_verbose args) (len levels - 1)).

(* ------------------------------------------------------------------ *)
(** ** [getFileList] *)

(** [s.endswith(suffix)] *)
Definition endswith (s suffix : string) : bool :=
  let n := String.length s in
  let m := String.length suffix in
  (m <=? n)%nat && (substring (n - m) m s =? suffix)%string.

(** The test of the filter: [filename.endswith('.JPG') or
    filename.endswith('.jpg')]. *)
Definition is_jpg (filename : string) : bool :=
  endswith filename ".JPG" || endswith filename ".jpg".

(** [l.remove(x)]: the first element equal to [x] goes; [ValueError] when
    there is none. *)
Fixpoint list_remove (x : string) (l : list string) : result (list string) :=
  match l with
  | [] => Raise ValueError
  | y :: l' =>
      if (y =? x)%string then Ok l'
      else l'' <- list_remove x l' ;; Ok (y :: l'')
  end.

(** [for filename in filenames: if not jpg: filenames.remove(filename)].
    The list iterator keeps a position [i] into the list it walks over and
    stops when the position is no longer inside; the body changes that very
    list.  Every turn moves the position on, so [length filenames] turns of
    [fuel] are enough. *)
Fixpoint remove_loop (fuel : nat) (i : nat) (filenames : list string)
  : result (list string) :=
  match fuel with
  | O => Ok filenames
  | S fuel' =>
      match nth_error filenames i with
      | None => Ok filenames
      | Some filename =>
          if negb (is_jpg filename) then
            filenames' <- list_remove filename filenames ;;
            remove_loop fuel' (S i) filenames'
          else remove_loop fuel' (S i) filenames
      end
  end.

(** [walk p] is [next(os.walk(p), (None, None, []))[2]], the names of the
    files directly in [p], empty when [p] cannot be listed.  The [except]
    branch that leaves the program is not modelled. *)
Definition getFileList (walk : string -> list string) (path : string)
  : result (list string) :=
  c <- str_getitem path (-1) ;;
  let path := if negb (c =? os_sep)%string then (path ++ os_sep)%string
              else path in
  let filenames := walk path in
  filenames <- remove_loop (length filenames) 0 filenames ;;
  Ok (map (fun filename => (path ++ filename)%string) filenames).

(** What the filter loop leaves of a listing without repeated names: a
    name that is no JPG is dropped and the name behind it is passed over
    untested. *)
Fixpoint sweep (l : list string) : list string :=
  match l with
  | [] => []
  | x :: l' =>
      if is_jpg x then x :: sweep l'
      else match l' with
           | [] => []
           | y :: l'' => y :: sweep l''
           end
  end.

(** No two names next to each other are both no JPG. *)
Fixpoint no_twin_rejects (l : list string) : Prop :=
  match l with
  | [] => True
  | x :: l' =>
      match l' with
      | [] => True
      | y :: _ => (is_jpg x = true \/ is_jpg y = true) /\ no_twin_rejects l'
      end
  end.

(* ------------------------------------------------------------------ *)
(** ** [packagePhotos], [zipPhotosInList] *)

(** [os.path.basename(p)]: what follows the last separator.  [acc] holds
    the characters read since the last separator. *)
Fixpoint basename_from (acc : string) (p : string) : string :=
  match p with
  | EmptyString => acc
  | String c p' =>
      if (c =? "/")%char then basename_from EmptyString p'
      else basename_from (acc ++ String c EmptyString)%string p'
  end.

Definition basename (p : string) : string := basename_from EmptyString p.

(** A name without a separator. *)
Fixpoint no_sep (s : string) : Prop :=
  match s with
  | EmptyString => True
  | String c s' => c <> "/"%char /\ no_sep s'
  end.

(** An archive: its path and its members, each the name inside the archive
    and the file it was read from, in the order they were written. *)
Definition Archive : Type := (string * list (string * string))%type.

(** The directories made and the archives written, oldest first. *)
Definition Disk : Type := (list string * list Archive)%type.

(** What the file system answers to the calls of the packaging.
    [mkdir p] is [Path(p).mkdir(parents=True, exist_ok=True)], [zip_open z]
    is [zipfile.ZipFile(z, "w", zipfile.ZIP_DEFLATED)], [zip_write z f] is
    [zf.write(f, arcname=...)] into the archive [z], [zip_close z] is the
    end of the [with] block.  Each of them returns or raises: a directory
    name taken by a file, an archive that cannot be created, a file that
    cannot be read or whose modification time is before 1980, a full
    disk. *)
Record Packer : Type := mkPacker {
  mkdir : string -> result unit;
  zip_open : string -> result unit;
  zip_write : string -> string -> result unit;
  zip_close : string -> result unit
}.

(** [zf.write(filename, arcname=os.path.basename(filename))] into the
    archive at [zipPath]. *)
Definition zf_write (pk : Packer) (zipPath : string) (filename : string)
    (members : list (string * string)) : result (list (string * string)) :=
  _ <- zip_write pk zipPath filename ;;
  Ok (members ++ [(basename filename, filename)]).

(** An exception inside the [with] block leaves the function; what is on
    the disk by then is not modelled. *)
Definition zipPhotosInList (pk : Packer) (args : Args)
    (filenames : list string) (zips : list Archive)
  : result (list Archive) :=
  c <- str_getitem (args_path args) (-1) ;;
  first <- getitem filenames 0 ;;
  let zipPath :=
    if negb (c =? os_sep)%string
    then (args_path args ++ os_sep ++ "packaged" ++ os_sep
          ++ basename first ++ ".zip")%string
    else (args_path args ++ "packaged" ++ os_sep
          ++ basename first ++ ".zip")%string in
  _ <- zip_open pk zipPath ;;
  members <- for_each filenames (zf_write pk zipPath) [] ;;
  _ <- zip_close pk zipPath ;;
  Ok (zips ++ [(zipPath, members)]).

Definition packagePhotos (pk : Packer) (args : Args)
    (grouped : list (list string)) (disk : Disk) : result Disk :=
  let '(dirs, zips) := disk in
  _ <- mkdir pk (args_path args ++ os_sep ++ "packaged")%string ;;
  let dirs := dirs ++ [(args_path args ++ os_sep ++ "packaged")%string] in
  zips' <- for_each grouped (zipPhotosInList pk args) zips ;;
  Ok (dirs, zips').

(** The archive [zipPhotosInList] writes for a group. *)
Definition archive_of (dir : string) (group : list string) : Archive :=
  ((dir ++ "packaged/" ++ basename (hd EmptyString group) ++ ".zip")%string,
   map (fun filename => (basename filename, filename)) group).

(** Every call the packaging of [group] makes returns. *)
Definition packs (pk : Packer) (dir : string) (group : list string) : Prop :=
  zip_open pk (fst (archive_of dir group)) = Ok tt /\
  (forall f : string,
     In f group -> zip_write pk (fst (archive_of dir group)) f = Ok tt) /\
  zip_close pk (fst (archive_of dir group)) = Ok tt.

(** A file system on which every call of the packaging returns. *)
Definition easy_packer : Packer :=
  mkPacker (fun _ => Ok tt) (fun _ => Ok tt) (fun _ _ => Ok tt)
    (fun _ => Ok tt).

(** The directory of the examples with a scan from before the epoch. *)
Definition archive_world : World :=
  mkWorld
    (fun p =>
       if (p =? "old.jpg")%string then Ok (exif_with "1969:12:31 00:00:00")
       else open_getexif sample_world p)
    (fun s =>
       if (s =? "1969:12:31 00:00:00")%string then Ok (-86400)
       else strptime_timestamp sample_world s).

(* ------------------------------------------------------------------ *)
(** ** More specification-side definitions *)

(** The groups of [r :: rest] as records, [cur] the records already in the
    open group; [clusters] is its image under the projection to paths. *)
Fixpoint cut (t : Z) (cur : list record) (r : record)
    (rest : list record) : list (list record) :=
  match rest with
  | [] => [cur ++ [r]]
  | r' :: rest' =>
      if delta r r' <=? t
      then cut t (cur ++ [r]) r' rest'
      else (cur ++ [r]) :: cut t [] r' rest'
  end.

(** The same records [k] seconds later. *)
Definition shift (k : Z) (r : record) : record := (fst r, snd r + k).

(** Arguments with [-p]. *)
Definition with_package (dir : string) : Args :=
  mkArgs dir 0 3 true None.

(** A listing for the examples. *)
Definition sample_walk (p : string) : list string :=
  if (p =? "photos/")%string
  then ["b0.jpg"; "notes.txt"; "todo.txt"; "b1.JPG"; "b2.jpg"]
  else [].

(* ------------------------------------------------------------------ *)
(** ** Runs of the code on small inputs *)

Example sortPhotos_ex1 :
  sortPhotos (with_threshold 3)
    [("a", 1000); ("b", 1001); ("c", 1010); ("d", 1011); ("e", 1012)]
  = Ok [["a"; "b"]; ["c"; "d"; "e"]].
Proof. reflexivity. Qed.

Example sortPhotos_ex2 :
  sortPhotos (with_threshold 3) [] = Raise IndexError.
Proof. reflexivity. Qed.

Example sorted_ex :
  sorted [("c", 5); ("a", 2); ("b", 5); ("d", 1)]
  = [("d", 1); ("a", 2); ("c", 5); ("b", 5)].
Proof. reflexivity. Qed.

Example exportResult_ex1 :
  exportResult (fun _ => true) (with_threshold 3) [["a"]] []
  = Ok [("photos/result.txt", [["a"]])].
Proof. reflexivity. Qed.

Example exportResult_ex2 :
  exportResult (fun p => negb (p =? "/nowhere/out.txt")%string)
    (with_export "photos" "/nowhere/out.txt") [["a"]] []
  = Raise UnboundLocalError.
Proof. reflexivity. Qed.

(* ------------------------------------------------------------------ *)
(** ** Facts about the runtime *)

Section Runtime.
Context {A : Type}.

Lemma len_app (l1 l2 : list A) : len (l1 ++ l2) = (len l1 + len l2)%Z.
Proof. unfold len. rewrite length_app. lia. Qed.

Lemma len_nonneg (l : list A) : (0 <= len l)%Z.
Proof. unfold len. lia. Qed.

(** A subscript that points just behind a prefix reads the next element. *)
Lemma getitem_middle (pre : list A) (a : A) (post : list A) :
  getitem (pre ++ a :: post) (len pre) = Ok a.
Proof.
  unfold getitem, norm_index.
  pose proof (len_nonneg pre) as Hpre.
  pose proof (len_nonneg post) as Hpost.
  destruct (len pre <? 0)%Z eqn:Hneg; [apply Z.ltb_lt in Hneg; lia|].
  rewrite len_app. change (a :: post) with ([a] ++ post).
  rewrite len_app. change (len [a]) with 1%Z.
  replace ((0 <=? len pre) && (len pre <? len pre + (1 + len post)))%Z
    with true
    by (symmetry; apply andb_true_iff; split;
        [apply Z.leb_le | apply Z.ltb_lt]; lia).
  unfold len. rewrite Nat2Z.id.
  rewrite nth_error_app2 by lia.
  rewrite Nat.sub_diag. reflexivity.
Qed.

(** [l[-1]] is the last element. *)
Lemma getitem_last (l : list A) (a : A) : getitem (l ++ [a]) (-1) = Ok a.
Proof.
  unfold getitem, norm_index.
  pose proof (len_nonneg l) as Hl.
  rewrite len_app. change (len [a]) with 1%Z.
  change (-1 <? 0)%Z with true. cbv iota.
  replace (-1 + (len l + 1))%Z with (len l) by lia.
  replace ((0 <=? len l) && (len l <? len l + 1))%Z with true
    by (symmetry; apply andb_true_iff; split;
        [apply Z.leb_le | apply Z.ltb_lt]; lia).
  unfold len. rewrite Nat2Z.id.
  rewrite nth_error_app2 by lia.
  rewrite Nat.sub_diag. reflexivity.
Qed.

Lemma update_last (l : list A) (a v : A) :
  update (l ++ [a]) (length l) v = l ++ [v].
Proof. induction l as [|x l IH]; simpl; [reflexivity | now rewrite IH]. Qed.

(** [l[-1] = v] replaces the last element. *)
Lemma setitem_last (l : list A) (a v : A) :
  setitem (l ++ [a]) (-1) v = Ok (l ++ [v]).
Proof.
  unfold setitem, norm_index.
  pose proof (len_nonneg l) as Hl.
  rewrite len_app. change (len [a]) with 1%Z.
  change (-1 <? 0)%Z with true. cbv iota.
  replace (-1 + (len l + 1))%Z with (len l) by lia.
  replace ((0 <=? len l) && (len l <? len l + 1))%Z with true
    by (symmetry; apply andb_true_iff; split;
        [apply Z.leb_le | apply Z.ltb_lt]; lia).
  unfold len. rewrite Nat2Z.id. now rewrite update_last.
Qed.

(** [range(len(l))] *)
Lemma range_len (l : list A) :
  range (len l) = map Z.of_nat (seq 0 (length l)).
Proof. unfold range, len. now rewrite Nat2Z.id. Qed.

End Runtime.

Lemma range_len_pred {A} (a : A) (l : list A) :
  range (len (a :: l) - 1) = map Z.of_nat (seq 0 (length l)).
Proof.
  unfold range, len. simpl length.
  replace (Z.to_nat (Z.of_nat (S (length l)) - 1)) with (length l) by lia.
  reflexivity.
Qed.

(* ------------------------------------------------------------------ *)
(** ** The two loops of [sortPhotos] *)

Section Loops.
Variable args : Args.
Let t := args_threshold args.

(** One turn of the first loop at the neighbours [r], [r'] that follow
    the prefix [pre]. *)
Lemma count_step_at (pre : list record) (r r' : record)
    (rest : list record) (acc : list Z) (k : Z) :
  count_step args (pre ++ r :: r' :: rest) (len pre) (acc ++ [k]) =
  if delta r r' <=? t then Ok (acc ++ [k + 1]) else Ok ((acc ++ [k]) ++ [1]).
Proof.
  assert (Hb : getitem (pre ++ r :: r' :: rest) (len pre + 1) = Ok r').
  { replace (pre ++ r :: r' :: rest) with ((pre ++ [r]) ++ r' :: rest)
      by (now rewrite <- app_assoc).
    replace (len pre + 1) with (len (pre ++ [r]))
      by (rewrite len_app; reflexivity).
    apply getitem_middle. }
  assert (Ha : getitem (pre ++ r :: r' :: rest) (len pre) = Ok r)
    by apply getitem_middle.
  unfold count_step. rewrite Hb, Ha. cbn [bind].
  fold (delta r r'). fold t.
  destruct (delta r r' <=? t); [|reflexivity].
  rewrite getitem_last. cbn [bind]. apply setitem_last.
Qed.

(** The first loop, started behind the prefix [pre] with [k] records
    counted into the open group, leaves the sizes [runs] computes. *)
Lemma count_loop_runs (rest : list record) :
  forall (pre : list record) (r : record) (acc : list Z) (k : Z),
    for_each (map Z.of_nat (seq (length pre) (length rest)))
      (count_step args (pre ++ r :: rest)) (acc ++ [k])
    = Ok (acc ++ runs t k r rest).
Proof.
  induction rest as [|r' rest IH]; intros pre r acc k.
  - reflexivity.
  - cbn [length seq map for_each runs].
    fold (len pre). rewrite count_step_at.
    specialize (IH (pre ++ [r]) r').
    rewrite length_app, Nat.add_1_r, <- app_assoc in IH. cbn [app] in IH.
    destruct (delta r r' <=? t); cbn [bind].
    + apply IH.
    + rewrite IH, <- app_assoc. reflexivity.
Qed.

(** The inner loop of the second phase moves as many paths as it has
    turns from the front of the deque to the end of the group. *)
Lemma group_loop (a : list record) :
  forall (xs : list Z) (g : list string) (b : list record),
    length xs = length a ->
    for_each xs group_step (g, a ++ b) = Ok (g ++ map fst a, b).
Proof.
  induction a as [|x a IH]; intros xs g b Hlen.
  - destruct xs; [|discriminate]. cbn. now rewrite app_nil_r.
  - destruct xs as [|i xs]; [discriminate|].
    cbn [for_each app group_step popleft bind].
    rewrite IH by (simpl in Hlen; lia).
    cbn [map]. now rewrite <- app_assoc.
Qed.

Lemma photos_step_at (pre : list record) (r : record)
    (rest : list record) (pl : list (list string)) :
  photos_step (len pre + 1) (pl, pre ++ r :: rest)
  = Ok (pl ++ [map fst pre ++ [fst r]], rest).
Proof.
  unfold photos_step.
  replace (pre ++ r :: rest) with ((pre ++ [r]) ++ rest)
    by (now rewrite <- app_assoc).
  replace (len pre + 1) with (len (pre ++ [r]))
    by (rewrite len_app; reflexivity).
  rewrite range_len, group_loop
    by (now rewrite length_map, length_seq).
  cbn [bind app]. now rewrite map_app.
Qed.

(** The second phase on the sizes of [runs] builds [clusters] and
    empties the deque. *)
Lemma photos_loop_clusters (rest : list record) :
  forall (pre : list record) (r : record) (pl : list (list string)),
    for_each (runs t (len pre + 1) r rest) photos_step
      (pl, pre ++ r :: rest)
    = Ok (pl ++ clusters t (map fst pre) r rest, []).
Proof.
  induction rest as [|r' rest IH]; intros pre r pl.
  - cbn [runs clusters for_each]. rewrite photos_step_at. reflexivity.
  - cbn [runs clusters].
    destruct (delta r r' <=? t).
    + specialize (IH (pre ++ [r]) r' pl).
      rewrite len_app, <- app_assoc, map_app in IH. apply IH.
    + cbn [for_each]. rewrite photos_step_at. cbn [bind].
      specialize (IH [] r' (pl ++ [map fst pre ++ [fst r]])).
      cbn [app map] in IH. change (len (@nil record) + 1) with 1 in IH.
      rewrite IH, <- app_assoc. reflexivity.
Qed.

(** [sortPhotos] on a non-empty list returns, without raising, the
    groups of one pass from the left. *)
Lemma sortPhotos_clusters (r : record) (rest : list record) :
  sortPhotos args (r :: rest) = Ok (clusters t [] r rest).
Proof.
  unfold sortPhotos. rewrite range_len_pred.
  pose proof (count_loop_runs rest [] r [] 1) as Hc.
  cbn [app length] in Hc. rewrite Hc. cbn [bind].
  pose proof (photos_loop_clusters rest [] r []) as Hp.
  cbn [app map] in Hp. change (len (@nil record) + 1) with 1 in Hp.
  rewrite Hp. reflexivity.
Qed.

(** On the empty list the second phase pops from an empty deque. *)
Lemma sortPhotos_nil : sortPhotos args [] = Raise IndexError.
Proof. reflexivity. Qed.

End Loops.

(* ------------------------------------------------------------------ *)
(** ** Properties of the groups *)

Lemma concat_clusters (t : Z) (rest : list record) :
  forall (cur : list string) (r : record),
    concat (clusters t cur r rest) = cur ++ map fst (r :: rest).
Proof.
  induction rest as [|r' rest IH]; intros cur r; cbn [clusters].
  - cbn. now rewrite app_nil_r.
  - destruct (delta r r' <=? t).
    + rewrite IH, <- app_assoc. reflexivity.
    + cbn [concat]. rewrite IH, <- app_assoc. reflexivity.
Qed.

Lemma length_clusters (t : Z) (rest : list record) :
  forall (cur : list string) (r : record),
    length (clusters t cur r rest) = S (gaps t r rest).
Proof.
  induction rest as [|r' rest IH]; intros cur r; cbn [clusters gaps].
  - reflexivity.
  - destruct (delta r r' <=? t); cbn [length]; now rewrite IH.
Qed.

Lemma clusters_nonempty (t : Z) (rest : list record) :
  forall (cur : list string) (r : record),
    Forall (fun c => c <> []) (clusters t cur r rest).
Proof.
  induction rest as [|r' rest IH]; intros cur r; cbn [clusters].
  - constructor; [|constructor]. now destruct cur.
  - destruct (delta r r' <=? t); [apply IH|].
    constructor; [now destruct cur | apply IH].
Qed.

Lemma gaps_wide_gaps (t : Z) (rest : list record) :
  forall r : record, gaps t r rest = wide_gaps t (r :: rest).
Proof.
  unfold wide_gaps, neighbours.
  induction rest as [|r' rest IH]; intros r.
  - reflexivity.
  - cbn [gaps tl combine filter fst snd]. rewrite IH. cbn [tl].
    rewrite Z.leb_antisym.
    now destruct (t <? delta r r').
Qed.

Lemma gaps_mono (t1 t2 : Z) (rest : list record) :
  t1 <= t2 ->
  forall r : record, (gaps t2 r rest <= gaps t1 r rest)%nat.
Proof.
  intros Ht. induction rest as [|r' rest IH]; intros r; cbn [gaps].
  - lia.
  - specialize (IH r').
    destruct (delta r r' <=? t1) eqn:H1, (delta r r' <=? t2) eqn:H2; lia.
Qed.

(** A list of groups whose concatenation is the image of [l] under [f] is
    the image of a cutting of [l] itself. *)
Lemma concat_map_cut {A B} (f : A -> B) (ls : list (list B)) :
  forall l : list A,
    concat ls = map f l ->
    exists rs : list (list A), concat rs = l /\ ls = map (map f) rs.
Proof.
  induction ls as [|c ls IH]; intros l H.
  - cbn in H. symmetry in H. apply map_eq_nil in H. subst l.
    exists []. now split.
  - cbn [concat] in H. symmetry in H.
    apply map_eq_app in H. destruct H as (l1 & l2 & -> & H1 & H2).
    symmetry in H2. destruct (IH l2 H2) as (rs & Hrs & ->).
    exists (l1 :: rs). cbn [concat map]. now rewrite Hrs, H1.
Qed.

(** The first group starts with the open group and the current record. *)
Lemma clusters_head (t : Z) (rest : list record) :
  forall (cur : list string) (r : record),
    exists (c : list string) (R : list (list string)),
      clusters t cur r rest = (cur ++ fst r :: c) :: R.
Proof.
  induction rest as [|r' rest IH]; intros cur r; cbn [clusters].
  - now exists [], [].
  - destruct (delta r r' <=? t).
    + destruct (IH (cur ++ [fst r]) r') as (c & R & ->).
      exists (fst r' :: c), R. now rewrite <- app_assoc.
    + now exists [], (clusters t [] r' rest).
Qed.

(** Records chained by small differences stay in the open group. *)
Lemma clusters_chain (t : Z) (M : list record) :
  forall (cur : list string) (r : record) (B : list record),
    chained t (r :: M) ->
    exists (c : list string) (R : list (list string)),
      clusters t cur r (M ++ B) = (cur ++ map fst (r :: M) ++ c) :: R.
Proof.
  induction M as [|r' M IH]; intros cur r B Hch.
  - cbn [app map]. apply clusters_head.
  - destruct Hch as [Hd Hch]. cbn [app clusters].
    apply Z.leb_le in Hd. rewrite Hd.
    destruct (IH (cur ++ [fst r]) r' B Hch) as (c & R & ->).
    exists c, R. now rewrite <- app_assoc.
Qed.

(** The groups of a list with a prefix [a :: A]: the groups closed inside
    the prefix, then the groups of the rest, started with the group the
    prefix leaves open. *)
Lemma clusters_skip (t : Z) (A : list record) :
  forall (cur : list string) (a x : record) (rest : list record),
    exists (L : list (list string)) (c : list string),
      clusters t cur a (A ++ x :: rest) = L ++ clusters t c x rest /\
      concat L ++ c = cur ++ map fst (a :: A).
Proof.
  induction A as [|a' A IH]; intros cur a x rest.
  - cbn [app clusters]. destruct (delta a x <=? t).
    + exists [], (cur ++ [fst a]). now split.
    + exists [cur ++ [fst a]], []. split; [reflexivity|].
      cbn. now rewrite !app_nil_r.
  - cbn [app clusters]. destruct (delta a a' <=? t).
    + destruct (IH (cur ++ [fst a]) a' x rest) as (L & c & H1 & H2).
      exists L, c. rewrite H1, H2, <- app_assoc. now split.
    + destruct (IH [] a' x rest) as (L & c & H1 & H2).
      exists ((cur ++ [fst a]) :: L), c. rewrite H1. split; [reflexivity|].
      cbn [concat]. rewrite <- !app_assoc, H2. reflexivity.
Qed.

(** [sortPhotos] seen from a record [x] inside the list. *)
Lemma sortPhotos_at (args : Args) (pre : list record) (x : record)
    (post : list record) :
  exists (L : list (list string)) (c : list string),
    sortPhotos args (pre ++ x :: post)
    = Ok (L ++ clusters (args_threshold args) c x post) /\
    concat L ++ c = map fst pre /\
    (pre = [] -> L = []).
Proof.
  destruct pre as [|a pre].
  - exists [], []. cbn [app]. rewrite sortPhotos_clusters. now repeat split.
  - cbn [app]. rewrite sortPhotos_clusters.
    destruct (clusters_skip (args_threshold args) pre [] a x post)
      as (L & c & H1 & H2).
    exists L, c. rewrite H1. repeat split; [exact H2 | discriminate].
Qed.

(* ------------------------------------------------------------------ *)
(** ** Properties of [sorted] *)

Lemma insert_by_unix_perm (x : record) (l : list record) :
  Permutation (insert_by_unix x l) (x :: l).
Proof.
  induction l as [|y l IH]; cbn [insert_by_unix]; [reflexivity|].
  destruct (snd x <=? snd y); [reflexivity|].
  rewrite IH. apply perm_swap.
Qed.

Lemma sorted_perm (l : list record) : Permutation (sorted l) l.
Proof.
  induction l as [|x l IH]; cbn [sorted fold_right]; [reflexivity|].
  fold (sorted l). rewrite insert_by_unix_perm. now constructor.
Qed.

Lemma insert_by_unix_ascending (x : record) (l : list record) :
  ascending l -> ascending (insert_by_unix x l).
Proof.
  unfold ascending. induction 1 as [|y l Hl IH Hy]; cbn [insert_by_unix].
  - repeat constructor.
  - destruct (snd x <=? snd y) eqn:Hxy.
    + apply Z.leb_le in Hxy. constructor; [now constructor|].
      constructor; [exact Hxy|].
      eapply Forall_impl; [|exact Hy]. cbn. intros; lia.
    + apply Z.leb_gt in Hxy. constructor; [exact IH|].
      eapply Permutation_Forall;
        [symmetry; apply insert_by_unix_perm|].
      constructor; [lia | exact Hy].
Qed.

Lemma sorted_ascending (l : list record) : ascending (sorted l).
Proof.
  induction l as [|x l IH]; cbn [sorted fold_right].
  - constructor.
  - now apply insert_by_unix_ascending.
Qed.

(** Two insertions with different keys commute. *)
Lemma insert_by_unix_comm (x y : record) (l : list record) :
  snd x <> snd y ->
  insert_by_unix x (insert_by_unix y l) = insert_by_unix y (insert_by_unix x l).
Proof.
  intros Hxy. induction l as [|z l IH]; cbn [insert_by_unix].
  - destruct (snd x <=? snd y) eqn:H1, (snd y <=? snd x) eqn:H2;
      try reflexivity; lia.
  - destruct (snd y <=? snd z) eqn:H1, (snd x <=? snd z) eqn:H2;
      cbn [insert_by_unix]; rewrite ?H1, ?H2.
    + destruct (snd x <=? snd y) eqn:H3, (snd y <=? snd x) eqn:H4;
        try reflexivity; lia.
    + destruct (snd x <=? snd y) eqn:H3; [lia | reflexivity].
    + destruct (snd y <=? snd x) eqn:H3; [lia | reflexivity].
    + now rewrite IH.
Qed.

(** With pairwise different time stamps the order of the input does not
    reach the output of [sorted]. *)
Lemma sorted_perm_invariant (l l' : list record) :
  Permutation l l' -> NoDup (map snd l) -> sorted l = sorted l'.
Proof.
  induction 1 as [|x l l' Hp IH|x y l|l1 l2 l3 H12 IH12 H23 IH23];
    intros Hnd.
  - reflexivity.
  - cbn [sorted fold_right]. fold (sorted l) (sorted l').
    inversion Hnd; subst. now rewrite IH.
  - cbn [sorted fold_right]. fold (sorted l).
    apply insert_by_unix_comm.
    inversion Hnd as [|? ? Hin _]; subst. cbn in Hin. intuition congruence.
  - rewrite IH12 by exact Hnd. apply IH23.
    eapply Permutation_NoDup; [|exact Hnd]. now apply Permutation_map.
Qed.

Lemma filter_none {A} (f : A -> bool) (l : list A) :
  Forall (fun a => f a = false) l -> filter f l = [].
Proof.
  induction 1 as [|a l Ha _ IH]; cbn [filter]; [reflexivity|].
  now rewrite Ha.
Qed.

(** An ascending list is its records before the epoch, then its records
    stamped 0 or 1, then the later ones. *)
Lemma ascending_three_parts (l : list record) :
  ascending l ->
  l = filter (fun r => snd r <? 0) l ++ filter low l
      ++ filter (fun r => 1 <? snd r) l.
Proof.
  unfold ascending. induction 1 as [|a l Hl IH Ha]; [reflexivity|].
  assert (Hneg : 0 <= snd a -> filter (fun r => snd r <? 0) l = []).
  { intros H0. apply filter_none.
    eapply Forall_impl; [|exact Ha]. cbn. intros; lia. }
  assert (Hlow : 1 < snd a -> filter low l = []).
  { intros H1. apply filter_none.
    eapply Forall_impl; [|exact Ha]. unfold low. cbn. intros; lia. }
  cbn [filter]. change (low a) with ((0 <=? snd a) && (snd a <=? 1)).
  destruct (Z.ltb_spec (snd a) 0), (Z.leb_spec 0 (snd a)),
    (Z.leb_spec (snd a) 1), (Z.ltb_spec 1 (snd a));
    try lia; cbn [andb app].
  - now rewrite <- IH.
  - rewrite Hneg in * by lia. cbn [app] in *. now rewrite <- IH.
  - rewrite Hneg, Hlow in * by lia. cbn [app] in *. now rewrite <- IH.
Qed.

Lemma low_chained (t : Z) (M : list record) :
  1 <= t -> Forall (fun r => low r = true) M -> chained t M.
Proof.
  intros Ht. induction 1 as [|a M Ha HM IH]; [exact I|].
  destruct M as [|b M]; [exact I|].
  split; [|exact IH].
  inversion HM; subst. unfold low, delta in *. lia.
Qed.

(* ------------------------------------------------------------------ *)
(** ** Properties of [getTimeShot] *)

Lemma getTimeShot_classify (w : World) (p : string) :
  getTimeShot w p = (p, unix_of (classify w p)).
Proof.
  unfold getTimeShot, classify.
  destruct (getTimeShot_try w p) as [u|e]; [reflexivity|].
  now destruct e.
Qed.

Lemma undated_low (w : World) (p : string) :
  undated w p -> low (getTimeShot w p) = true.
Proof.
  rewrite getTimeShot_classify. unfold undated, low. cbn [snd].
  intros [H|H].
  - now destruct (classify w p).
  - now rewrite H.
Qed.

(* ------------------------------------------------------------------ *)
(** ** The grouping: partition, count, monotonicity, boundary *)

(** C1: for every non-empty list of (path, unix) records and every integer
    threshold, [sortPhotos] returns, and the groups it returns, concatenated
    in the order they were emitted, are the paths of the input in the order
    of the input: the groups are the consecutive pieces of a cutting of the
    input, each record kept once, its path standing for it.  On the empty
    list nothing is returned: [IndexError] is raised. *)
Theorem sortPhotos_partition (args : Args) (timeList : list record) :
  match timeList with
  | [] => sortPhotos args timeList = Raise IndexError
  | _ :: _ =>
      exists photosList : list (list string),
        sortPhotos args timeList = Ok photosList /\
        concat photosList = map fst timeList /\
        exists parts : list (list record),
          concat parts = timeList /\ photosList = map (map fst) parts
  end.
Proof.
  destruct timeList as [|r rest]; [reflexivity|].
  exists (clusters (args_threshold args) [] r rest).
  pose proof (concat_clusters (args_threshold args) rest [] r) as Hc.
  cbn [app] in Hc.
  split; [apply sortPhotos_clusters|]. split; [exact Hc|].
  now apply concat_map_cut.
Qed.

(** C2: on the empty list [sortPhotos] does not return the empty list of
    groups: the first group size [1] is popped from an empty deque and
    [IndexError] is raised. *)
Theorem sortPhotos_empty_raises (args : Args) :
  sortPhotos args [] = Raise IndexError.
Proof.
  unfold sortPhotos. cbn [len length range for_each bind].
  reflexivity.
Qed.

(** C10: for every non-empty list of records and every integer threshold,
    [sortPhotos] returns one group more than there are neighbours whose
    time difference strictly exceeds the threshold, and no group is
    empty. *)
Theorem sortPhotos_count (args : Args) (timeList : list record) :
  timeList <> [] ->
  exists photosList : list (list string),
    sortPhotos args timeList = Ok photosList /\
    length photosList = S (wide_gaps (args_threshold args) timeList) /\
    Forall (fun group => group <> []) photosList.
Proof.
  destruct timeList as [|r rest]; [congruence|]. intros _.
  exists (clusters (args_threshold args) [] r rest).
  split; [apply sortPhotos_clusters|]. split.
  - rewrite length_clusters, gaps_wide_gaps. reflexivity.
  - apply clusters_nonempty.
Qed.

Lemma sortPhotos_count_witness :
  [("a.jpg", 100); ("b.jpg", 104); ("c.jpg", 105)] <> [] /\
  exists photosList : list (list string),
    sortPhotos (with_threshold 3)
      [("a.jpg", 100); ("b.jpg", 104); ("c.jpg", 105)] = Ok photosList /\
    length photosList
    = S (wide_gaps 3 [("a.jpg", 100); ("b.jpg", 104); ("c.jpg", 105)]) /\
    Forall (fun group => group <> []) photosList.
Proof.
  split; [discriminate|].
  apply (sortPhotos_count (with_threshold 3)
           [("a.jpg", 100); ("b.jpg", 104); ("c.jpg", 105)]).
  discriminate.
Defined.

(** C6: for every list of records and thresholds [t1 <= t2], the run with
    [t2] returns exactly when the run with [t1] does, and then with no
    more groups; both raise only on the empty list. *)
Theorem threshold_monotone (args1 args2 : Args) (timeList : list record) :
  args_threshold args1 <= args_threshold args2 ->
  match sortPhotos args1 timeList, sortPhotos args2 timeList with
  | Ok photosList1, Ok photosList2 =>
      (length photosList2 <= length photosList1)%nat
  | Raise _, Raise _ => timeList = []
  | _, _ => False
  end.
Proof.
  intros Ht. destruct timeList as [|r rest]; [reflexivity|].
  rewrite !sortPhotos_clusters, !length_clusters.
  apply le_n_S. now apply gaps_mono.
Qed.

Lemma threshold_monotone_witness :
  args_threshold (with_threshold 1) <= args_threshold (with_threshold 5) /\
  match sortPhotos (with_threshold 1)
          [("a.jpg", 100); ("b.jpg", 104); ("c.jpg", 105)],
        sortPhotos (with_threshold 5)
          [("a.jpg", 100); ("b.jpg", 104); ("c.jpg", 105)] with
  | Ok photosList1, Ok photosList2 =>
      (length photosList2 <= length photosList1)%nat
  | Raise _, Raise _ =>
      [("a.jpg", 100); ("b.jpg", 104); ("c.jpg", 105)] = []
  | _, _ => False
  end.
Proof.
  split; [cbn; lia|].
  apply (threshold_monotone (with_threshold 1) (with_threshold 5)
           [("a.jpg", 100); ("b.jpg", 104); ("c.jpg", 105)]).
  cbn. lia.
Defined.

(** C4: two neighbours anywhere in the input whose time difference equals
    the threshold end up next to each other in one group; when the
    difference is the threshold plus one, the first closes a group and the
    second opens the next.  The groups before them hold the paths of the
    records before them.  With threshold 3, time stamps 100 and 103 give
    one group, 100 and 104 give two. *)
Theorem threshold_inclusive (args : Args) (pre : list record)
    (r1 r2 : record) (post : list record) :
  (delta r1 r2 = args_threshold args ->
   exists (L : list (list string)) (c1 c2 : list string)
          (R : list (list string)),
     sortPhotos args (pre ++ r1 :: r2 :: post)
     = Ok (L ++ (c1 ++ [fst r1; fst r2] ++ c2) :: R) /\
     concat L ++ c1 = map fst pre) /\
  (delta r1 r2 = args_threshold args + 1 ->
   exists (L : list (list string)) (c1 c2 : list string)
          (R : list (list string)),
     sortPhotos args (pre ++ r1 :: r2 :: post)
     = Ok (L ++ (c1 ++ [fst r1]) :: (fst r2 :: c2) :: R) /\
     concat L ++ c1 = map fst pre) /\
  (forall a b : string,
     sortPhotos (with_threshold 3) [(a, 100); (b, 103)] = Ok [[a; b]] /\
     sortPhotos (with_threshold 3) [(a, 100); (b, 104)] = Ok [[a]; [b]]).
Proof.
  destruct (sortPhotos_at args pre r1 (r2 :: post)) as (L & c & Hs & Hc & _).
  cbn [clusters] in Hs.
  split; [|split].
  - intros Hd.
    replace (delta r1 r2 <=? args_threshold args) with true in Hs
      by (symmetry; apply Z.leb_le; lia).
    destruct (clusters_head (args_threshold args) post (c ++ [fst r1]) r2)
      as (c2 & R & Hh).
    exists L, c, c2, R. rewrite Hs, Hh, <- app_assoc. now split.
  - intros Hd.
    replace (delta r1 r2 <=? args_threshold args) with false in Hs
      by (symmetry; apply Z.leb_gt; lia).
    destruct (clusters_head (args_threshold args) post [] r2)
      as (c2 & R & Hh).
    exists L, c, c2, R. rewrite Hs, Hh. now split.
  - intros a b. split; reflexivity.
Qed.

Lemma threshold_inclusive_witness :
  delta ("b.jpg", 100) ("c.jpg", 103) = args_threshold (with_threshold 3) /\
  exists (L : list (list string)) (c1 c2 : list string)
         (R : list (list string)),
    sortPhotos (with_threshold 3)
      ([("a.jpg", 50)] ++ ("b.jpg", 100) :: ("c.jpg", 103) :: [("d.jpg", 107)])
    = Ok (L ++ (c1 ++ [fst ("b.jpg", 100); fst ("c.jpg", 103)] ++ c2) :: R) /\
    concat L ++ c1 = map fst [("a.jpg", 50)].
Proof.
  split; [reflexivity|].
  apply (proj1 (threshold_inclusive (with_threshold 3) [("a.jpg", 50)]
                  ("b.jpg", 100) ("c.jpg", 103) [("d.jpg", 107)])).
  reflexivity.
Defined.

(* ------------------------------------------------------------------ *)
(** ** Extraction and the fallback time stamps *)

(** C5: in a worker in which [logger] is not bound, every failure of the
    [try] block makes [getTimeShot] leave with [NameError], raised by the
    handler itself, instead of returning a record with a fallback time
    stamp; only a file that can be dated gives its record there.  Where
    [logger] is bound every call returns the record of its path, stamped 1
    when PIL does not recognise an image and 0 on every other exception. *)
Theorem getTimeShot_unbound_logger (w : World) (path : string) :
  getTimeShot_run true w path = Ok (getTimeShot w path) /\
  match getTimeShot_try w path with
  | Ok unix => getTimeShot_run false w path = Ok (path, unix)
  | Raise UnidentifiedImageError =>
      getTimeShot_run false w path = Raise NameError /\
      getTimeShot_run true w path = Ok (path, 1)
  | Raise _ =>
      getTimeShot_run false w path = Raise NameError /\
      getTimeShot_run true w path = Ok (path, 0)
  end /\
  getTimeShot_run false sample_world "notes.jpg" = Raise NameError /\
  getTimeShot_run false sample_world "noexif.jpg" = Raise NameError /\
  getTimeShot_run false sample_world "missing.jpg" = Raise NameError /\
  getTimeShot_run false sample_world "b0.jpg" = Ok ("b0.jpg", 1000).
Proof.
  split; [|split].
  - unfold getTimeShot_run, getTimeShot.
    destruct (getTimeShot_try w path) as [u|e]; [reflexivity|].
    destruct e; reflexivity.
  - unfold getTimeShot_run.
    destruct (getTimeShot_try w path) as [u|e]; [reflexivity|].
    destruct e; split; reflexivity.
  - repeat split.
Qed.

(** C8 (as amended): the two fallbacks are the integers 1 and 0, different
    from each other; a file with a genuine time stamp gets the time stamp
    of a file without one exactly when its epoch value is 0 and the other
    file is unparsable, or its epoch value is 1 and the other file is
    unreadable. *)
Theorem sentinel_collision_iff (w1 w2 : World) (p q : string) (e : Z) :
  classify w1 p = Known e ->
  is_sentinel (classify w2 q) = true ->
  unix_of Unreadable <> unix_of Unparsable /\
  (snd (getTimeShot w1 p) = snd (getTimeShot w2 q) <->
   (e = 0 /\ classify w2 q = Unparsable) \/
   (e = 1 /\ classify w2 q = Unreadable)).
Proof.
  intros Hp Hq. split; [discriminate|].
  rewrite !getTimeShot_classify, Hp. cbn [snd unix_of].
  destruct (classify w2 q) as [u| |]; [discriminate Hq| |]; cbn [unix_of].
  - split.
    + intros ->. now right.
    + intros [[_ H]|[H _]]; [discriminate H | exact H].
  - split.
    + intros ->. now left.
    + intros [[H _]|[_ H]]; [exact H | discriminate H].
Qed.

Lemma sentinel_collision_iff_witness :
  classify sample_world "b0.jpg" = Known 1000 /\
  is_sentinel (classify sample_world "notes.jpg") = true /\
  unix_of Unreadable <> unix_of Unparsable /\
  (snd (getTimeShot sample_world "b0.jpg")
   = snd (getTimeShot sample_world "notes.jpg") <->
   (1000 = 0 /\ classify sample_world "notes.jpg" = Unparsable) \/
   (1000 = 1 /\ classify sample_world "notes.jpg" = Unreadable)).
Proof.
  split; [reflexivity|]. split; [reflexivity|].
  apply (sentinel_collision_iff sample_world sample_world
           "b0.jpg" "notes.jpg" 1000); reflexivity.
Defined.

(** C8 as stated fails: an image stamped with the start of the epoch and
    the same file without EXIF data give the same record. *)
Lemma epoch_zero_collides :
  classify sample_world "epoch.jpg" = Known 0 /\
  classify stripped_world "epoch.jpg" = Unparsable /\
  getTimeShot sample_world "epoch.jpg" = getTimeShot stripped_world "epoch.jpg" /\
  classify sample_world "epoch1.jpg" = Known 1 /\
  classify sample_world "notes.jpg" = Unreadable /\
  snd (getTimeShot sample_world "epoch1.jpg")
  = snd (getTimeShot sample_world "notes.jpg").
Proof. repeat split. Qed.

(** C3 as stated fails: an unparsable and an unreadable file are one
    second apart, not zero, and the threshold 0 separates them; and behind
    a scan that is dated before the epoch, the group of the files without
    a time stamp is not the leading one. *)
Lemma sentinel_pair_splits :
  classify sample_world "noexif.jpg" = Unparsable /\
  classify sample_world "notes.jpg" = Unreadable /\
  sorted (getTimeShotList sample_world ["notes.jpg"; "noexif.jpg"])
  = [("noexif.jpg", 0); ("notes.jpg", 1)] /\
  delta ("noexif.jpg", 0) ("notes.jpg", 1) <> 0 /\
  0 <= args_threshold (with_threshold 0) /\
  sortPhotos (with_threshold 0)
    (sorted (getTimeShotList sample_world ["notes.jpg"; "noexif.jpg"]))
  = Ok [["noexif.jpg"]; ["notes.jpg"]] /\
  classify archive_world "old.jpg" = Known (-86400) /\
  classify archive_world "noexif.jpg" = Unparsable /\
  classify archive_world "notes.jpg" = Unreadable /\
  sortPhotos (with_threshold 3)
    (sorted (getTimeShotList archive_world
               ["notes.jpg"; "old.jpg"; "noexif.jpg"]))
  = Ok [["old.jpg"]; ["noexif.jpg"; "notes.jpg"]].
Proof. repeat split; discriminate. Qed.

(** C3 (as amended): the fallback time stamps are 0 for an unparsable and
    1 for an unreadable file.  Of two files without a time stamp, or
    stamped with epoch 0, the second is 0 seconds after the first when both
    are of the same kind and when one is unparsable and the other stamped
    with epoch 0, 1 second after it when the first is unparsable or
    stamped with epoch 0 and the second unreadable, and 1 second before it
    in the opposite order: never more than one second apart.  With a
    threshold of at least 1, all such files of a batch fall into one
    single group of the sorted batch, and that group is the leading one
    when no file of the batch is stamped before the epoch. *)
Theorem sentinel_co_clustering (w : World) (args : Args)
    (files : list string) :
  1 <= args_threshold args ->
  (exists p : string, In p files /\ undated w p) ->
  (forall p : string,
     (classify w p = Unparsable -> snd (getTimeShot w p) = 0) /\
     (classify w p = Unreadable -> snd (getTimeShot w p) = 1)) /\
  (forall p q : string,
     undated w p -> undated w q ->
     (classify w p = classify w q ->
      delta (getTimeShot w p) (getTimeShot w q) = 0) /\
     (classify w p = Unparsable -> classify w q = Known 0 ->
      delta (getTimeShot w p) (getTimeShot w q) = 0) /\
     (classify w p = Known 0 -> classify w q = Unparsable ->
      delta (getTimeShot w p) (getTimeShot w q) = 0) /\
     (classify w p = Unparsable \/ classify w p = Known 0 ->
      classify w q = Unreadable ->
      delta (getTimeShot w p) (getTimeShot w q) = 1) /\
     (classify w p = Unreadable ->
      classify w q = Unparsable \/ classify w q = Known 0 ->
      delta (getTimeShot w p) (getTimeShot w q) = -1) /\
     -1 <= delta (getTimeShot w p) (getTimeShot w q) <= 1) /\
  exists (L : list (list string)) (c : list string) (R : list (list string)),
    sortPhotos args (sorted (getTimeShotList w files)) = Ok (L ++ c :: R) /\
    (forall p : string, In p files -> undated w p -> In p c) /\
    (Forall (fun p => 0 <= snd (getTimeShot w p)) files -> L = []).
Proof.
  intros Ht (p0 & Hin0 & Hu0). split.
  { intros p. rewrite getTimeShot_classify. cbn [snd].
    split; intros ->; reflexivity. }
  split.
  { intros p q Hp Hq.
    apply undated_low in Hp, Hq. unfold low in Hp, Hq.
    rewrite getTimeShot_classify in Hp, Hq. cbn [snd] in Hp, Hq.
    rewrite !getTimeShot_classify. unfold delta. cbn [snd].
    split; [intros ->; lia|].
    split; [intros -> ->; reflexivity|].
    split; [intros -> ->; reflexivity|].
    split; [intros [->| ->] ->; reflexivity|].
    split; [intros -> [->| ->]; reflexivity|].
    lia. }
  assert (Hmem : forall p, In p files ->
            In (getTimeShot w p) (sorted (getTimeShotList w files))).
  { intros p Hp. apply (Permutation_in _ (Permutation_sym (sorted_perm _))).
    unfold getTimeShotList. now apply in_map. }
  remember (sorted (getTimeShotList w files)) as tl eqn:Htl.
  assert (Hasc : ascending tl) by (rewrite Htl; apply sorted_ascending).
  pose proof (ascending_three_parts tl Hasc) as H3.
  remember (filter (fun r => snd r <? 0) tl) as A eqn:HA.
  remember (filter low tl) as M eqn:HM.
  remember (filter (fun r => 1 <? snd r) tl) as B eqn:HB.
  assert (HinM : forall p, In p files -> undated w p ->
            In (getTimeShot w p) M).
  { intros p Hp Hu. rewrite HM. apply filter_In.
    split; [now apply Hmem | now apply undated_low]. }
  assert (HlowM : Forall (fun r => low r = true) M).
  { rewrite HM. apply Forall_forall. intros r Hr.
    now apply filter_In in Hr. }
  destruct M as [|m M'].
  { destruct (HinM p0 Hin0 Hu0). }
  pose proof (low_chained (args_threshold args) (m :: M') Ht HlowM) as Hch.
  destruct (sortPhotos_at args A m (M' ++ B)) as (L & c & Hs & Hc & HL).
  destruct (clusters_chain (args_threshold args) M' c m B Hch)
    as (c2 & R & Hcl).
  exists L, (c ++ map fst (m :: M') ++ c2), R.
  split; [|split].
  - rewrite H3. cbn [app]. etransitivity; [exact Hs|]. now rewrite Hcl.
  - intros p Hp Hu. apply in_or_app. right. apply in_or_app. left.
    replace p with (fst (getTimeShot w p))
      by (now rewrite getTimeShot_classify).
    apply in_map. now apply HinM.
  - intros Hpos. apply HL. rewrite HA. apply filter_none.
    apply Forall_forall. intros r Hr. rewrite Htl in Hr.
    apply (Permutation_in _ (sorted_perm _)) in Hr.
    unfold getTimeShotList in Hr. apply in_map_iff in Hr.
    destruct Hr as (p & <- & Hp).
    rewrite Forall_forall in Hpos. specialize (Hpos p Hp). lia.
Qed.

Lemma sentinel_co_clustering_witness :
  1 <= args_threshold (with_threshold 3) /\
  (exists p : string,
     In p ["b0.jpg"; "notes.jpg"; "epoch.jpg"; "noexif.jpg"; "missing.jpg"]
     /\ undated sample_world p) /\
  (forall p : string,
     (classify sample_world p = Unparsable ->
      snd (getTimeShot sample_world p) = 0) /\
     (classify sample_world p = Unreadable ->
      snd (getTimeShot sample_world p) = 1)) /\
  (forall p q : string,
     undated sample_world p -> undated sample_world q ->
     (classify sample_world p = classify sample_world q ->
      delta (getTimeShot sample_world p) (getTimeShot sample_world q) = 0) /\
     (classify sample_world p = Unparsable ->
      classify sample_world q = Known 0 ->
      delta (getTimeShot sample_world p) (getTimeShot sample_world q) = 0) /\
     (classify sample_world p = Known 0 ->
      classify sample_world q = Unparsable ->
      delta (getTimeShot sample_world p) (getTimeShot sample_world q) = 0) /\
     (classify sample_world p = Unparsable \/
      classify sample_world p = Known 0 ->
      classify sample_world q = Unreadable ->
      delta (getTimeShot sample_world p) (getTimeShot sample_world q) = 1) /\
     (classify sample_world p = Unreadable ->
      classify sample_world q = Unparsable \/
      classify sample_world q = Known 0 ->
      delta (getTimeShot sample_world p) (getTimeShot sample_world q) = -1) /\
     -1 <= delta (getTimeShot sample_world p) (getTimeShot sample_world q)
        <= 1) /\
  exists (L : list (list string)) (c : list string) (R : list (list string)),
    sortPhotos (with_threshold 3)
      (sorted (getTimeShotList sample_world
         ["b0.jpg"; "notes.jpg"; "epoch.jpg"; "noexif.jpg"; "missing.jpg"]))
    = Ok (L ++ c :: R) /\
    (forall p : string,
       In p ["b0.jpg"; "notes.jpg"; "epoch.jpg"; "noexif.jpg"; "missing.jpg"]
       -> undated sample_world p -> In p c) /\
    (Forall (fun p => 0 <= snd (getTimeShot sample_world p))
       ["b0.jpg"; "notes.jpg"; "epoch.jpg"; "noexif.jpg"; "missing.jpg"]
     -> L = []).
Proof.
  assert (Ht : 1 <= args_threshold (with_threshold 3)) by (cbn; lia).
  assert (Hex : exists p : string,
            In p ["b0.jpg"; "notes.jpg"; "epoch.jpg"; "noexif.jpg";
                  "missing.jpg"] /\ undated sample_world p).
  { exists "notes.jpg". split; [cbn; auto | left; reflexivity]. }
  split; [exact Ht|]. split; [exact Hex|].
  exact (sentinel_co_clustering sample_world (with_threshold 3)
           ["b0.jpg"; "notes.jpg"; "epoch.jpg"; "noexif.jpg"; "missing.jpg"]
           Ht Hex).
Defined.

Example sentinel_co_clustering_run :
  sortPhotos (with_threshold 3)
    (sorted (getTimeShotList sample_world
       ["b0.jpg"; "notes.jpg"; "epoch.jpg"; "noexif.jpg"; "missing.jpg"]))
  = Ok [["epoch.jpg"; "noexif.jpg"; "missing.jpg"; "notes.jpg"]; ["b0.jpg"]].
Proof. reflexivity. Qed.

(* ------------------------------------------------------------------ *)
(** ** The report *)

(** C7: when the write to the path given with [-e] fails, [exportResult]
    does not reach the write to the default path: the handler reads its
    local variable [path] before anything was assigned to it and
    [UnboundLocalError] leaves the function, whether or not the default
    path could be written. *)
Theorem exportResult_fallback_unbound (can_write : string -> bool)
    (args : Args) (e : string) (grouped : list (list string)) (fs : Files) :
  args_export args = Some e ->
  can_write e = false ->
  exportResult can_write args grouped fs = Raise UnboundLocalError.
Proof.
  intros He Hw. unfold exportResult, writeResults. now rewrite He, Hw.
Qed.

Lemma exportResult_fallback_unbound_witness :
  args_export (with_export "photos" "/nowhere/out.txt")
  = Some "/nowhere/out.txt" /\
  negb ("/nowhere/out.txt" =? "/nowhere/out.txt")%string = false /\
  default_path (with_export "photos" "/nowhere/out.txt")
  = Ok "photos/result.txt" /\
  negb ("photos/result.txt" =? "/nowhere/out.txt")%string = true /\
  exportResult (fun p => negb (p =? "/nowhere/out.txt")%string)
    (with_export "photos" "/nowhere/out.txt") [["a.jpg"]] []
  = Raise UnboundLocalError.
Proof.
  repeat (split; [reflexivity|]).
  apply (exportResult_fallback_unbound
           (fun p => negb (p =? "/nowhere/out.txt")%string)
           (with_export "photos" "/nowhere/out.txt")
           "/nowhere/out.txt" [["a.jpg"]] []); reflexivity.
Defined.

(** Without [-e] the report goes to [result.txt] under [args.path]. *)
Lemma exportResult_default (can_write : string -> bool) (args : Args)
    (grouped : list (list string)) (fs : Files) (p : string) :
  args_export args = None ->
  default_path args = Ok p ->
  can_write p = true ->
  exportResult can_write args grouped fs = Ok ((p, grouped) :: fs).
Proof.
  unfold exportResult, default_path. intros -> Hp Hw.
  destruct (str_getitem (args_path args) (-1)) as [c|]; [|discriminate Hp].
  cbn [bind] in *.
  match type of Hp with
  | Ok ?x = Ok _ => assert (Hx : x = p) by (injection Hp; trivial)
  end.
  rewrite Hx. unfold writeResults. now rewrite Hw.
Qed.

(* ------------------------------------------------------------------ *)
(** ** End to end *)

(** C9: five files whose capture times are the epochs 1000, 1001, 1010,
    1011 and 1012, handed over in any order, are sorted and grouped with
    threshold 3 into exactly two groups, the files of 1000 and 1001, then
    the files of 1010, 1011 and 1012. *)
Theorem burst_end_to_end (w : World) (args : Args)
    (a b c d e : string) (files : list string) :
  args_threshold args = 3 ->
  classify w a = Known 1000 ->
  classify w b = Known 1001 ->
  classify w c = Known 1010 ->
  classify w d = Known 1011 ->
  classify w e = Known 1012 ->
  Permutation files [a; b; c; d; e] ->
  sorted (getTimeShotList w files)
  = [(a, 1000); (b, 1001); (c, 1010); (d, 1011); (e, 1012)] /\
  sortPhotos args (sorted (getTimeShotList w files))
  = Ok [[a; b]; [c; d; e]].
Proof.
  intros Ht Ha Hb Hc Hd He Hperm.
  assert (Hs : sorted (getTimeShotList w files)
               = [(a, 1000); (b, 1001); (c, 1010); (d, 1011); (e, 1012)]).
  { rewrite <- (sorted_perm_invariant
                  [(a, 1000); (b, 1001); (c, 1010); (d, 1011); (e, 1012)]
                  (getTimeShotList w files)).
    - reflexivity.
    - symmetry. unfold getTimeShotList.
      rewrite (Permutation_map (getTimeShot w) Hperm). cbn [map].
      rewrite !getTimeShot_classify, Ha, Hb, Hc, Hd, He. reflexivity.
    - cbn [map snd]. repeat constructor; cbn; intuition discriminate. }
  split; [exact Hs|].
  rewrite Hs, sortPhotos_clusters, Ht. reflexivity.
Qed.

Lemma burst_end_to_end_witness :
  args_threshold (with_threshold 3) = 3 /\
  classify sample_world "b0.jpg" = Known 1000 /\
  classify sample_world "b1.jpg" = Known 1001 /\
  classify sample_world "b2.jpg" = Known 1010 /\
  classify sample_world "b3.jpg" = Known 1011 /\
  classify sample_world "b4.jpg" = Known 1012 /\
  Permutation ["b1.jpg"; "b0.jpg"; "b2.jpg"; "b3.jpg"; "b4.jpg"]
    ["b0.jpg"; "b1.jpg"; "b2.jpg"; "b3.jpg"; "b4.jpg"] /\
  sorted (getTimeShotList sample_world
            ["b1.jpg"; "b0.jpg"; "b2.jpg"; "b3.jpg"; "b4.jpg"])
  = [("b0.jpg", 1000); ("b1.jpg", 1001); ("b2.jpg", 1010);
     ("b3.jpg", 1011); ("b4.jpg", 1012)] /\
  sortPhotos (with_threshold 3)
    (sorted (getTimeShotList sample_world
               ["b1.jpg"; "b0.jpg"; "b2.jpg"; "b3.jpg"; "b4.jpg"]))
  = Ok [["b0.jpg"; "b1.jpg"]; ["b2.jpg"; "b3.jpg"; "b4.jpg"]].
Proof.
  repeat (split; [reflexivity|]).
  split; [apply perm_swap|].
  apply (burst_end_to_end sample_world (with_threshold 3)
           "b0.jpg" "b1.jpg" "b2.jpg" "b3.jpg" "b4.jpg"
           ["b1.jpg"; "b0.jpg"; "b2.jpg"; "b3.jpg"; "b4.jpg"]);
    try reflexivity.
  apply perm_swap.
Defined.

(* ------------------------------------------------------------------ *)
(** ** The groups as runs of records *)

Lemma clusters_cut (t : Z) (rest : list record) :
  forall (cur : list record) (r : record),
    clusters t (map fst cur) r rest = map (map fst) (cut t cur r rest).
Proof.
  induction rest as [|r' rest IH]; intros cur r; cbn [clusters cut].
  - cbn [map]. now rewrite map_app.
  - destruct (delta r r' <=? t).
    + rewrite <- IH, map_app. reflexivity.
    + cbn [map]. rewrite <- (IH [] r'), map_app. reflexivity.
Qed.

Lemma sortPhotos_cut (args : Args) (r : record) (rest : list record) :
  sortPhotos args (r :: rest)
  = Ok (map (map fst) (cut (args_threshold args) [] r rest)).
Proof. rewrite sortPhotos_clusters. now rewrite <- clusters_cut. Qed.

Lemma concat_cut (t : Z) (rest : list record) :
  forall (cur : list record) (r : record),
    concat (cut t cur r rest) = cur ++ r :: rest.
Proof.
  induction rest as [|r' rest IH]; intros cur r; cbn [cut].
  - cbn. now rewrite app_nil_r.
  - destruct (delta r r' <=? t).
    + rewrite IH, <- app_assoc. reflexivity.
    + cbn [concat]. rewrite IH, <- app_assoc. reflexivity.
Qed.

Lemma cut_head (t : Z) (rest : list record) :
  forall (cur : list record) (r : record),
    exists (c : list record) (R : list (list record)),
      cut t cur r rest = (cur ++ r :: c) :: R.
Proof.
  induction rest as [|r' rest IH]; intros cur r; cbn [cut].
  - now exists [], [].
  - destruct (delta r r' <=? t).
    + destruct (IH (cur ++ [r]) r') as (c & R & ->).
      exists (r' :: c), R. now rewrite <- app_assoc.
    + now exists [], (cut t [] r' rest).
Qed.

Lemma chained_snoc (t : Z) (l : list record) (a b : record) :
  chained t (l ++ [a]) -> delta a b <= t -> chained t ((l ++ [a]) ++ [b]).
Proof.
  intros Hl Hab. rewrite <- app_assoc. cbn [app].
  induction l as [|x l IH]; [cbn; auto|].
  destruct l as [|y l].
  - cbn in *. tauto.
  - cbn [app] in Hl, IH |- *. destruct Hl as [Hxy Hl].
    split; [exact Hxy | exact (IH Hl)].
Qed.

Lemma cut_chained (t : Z) (rest : list record) :
  forall (cur : list record) (r : record),
    chained t (cur ++ [r]) -> Forall (chained t) (cut t cur r rest).
Proof.
  induction rest as [|r' rest IH]; intros cur r Hc; cbn [cut].
  - now constructor.
  - destruct (delta r r' <=? t) eqn:Hd.
    + apply IH, chained_snoc; [exact Hc | now apply Z.leb_le].
    + constructor; [exact Hc|]. apply IH. exact I.
Qed.

Lemma cut_boundary (t : Z) (rest : list record) :
  forall (cur : list record) (r : record)
         (A : list (list record)) (p : list record) (x y : record)
         (q : list record) (B : list (list record)),
    cut t cur r rest = A ++ (p ++ [x]) :: (y :: q) :: B ->
    t < delta x y.
Proof.
  induction rest as [|r' rest IH]; intros cur r A p x y q B H;
    cbn [cut] in H.
  - apply (f_equal (@length _)) in H. rewrite length_app in H.
    cbn in H. lia.
  - destruct (delta r r' <=? t) eqn:Hd; [now apply IH in H|].
    destruct A as [|a A]; cbn [app] in H.
    + injection H as H1 H2. apply app_inj_tail in H1. destruct H1 as [_ <-].
      destruct (cut_head t rest [] r') as (c & R & Hh).
      rewrite Hh in H2. cbn [app] in H2. injection H2 as <- _ _.
      now apply Z.leb_gt.
    + injection H as _ H. now apply IH in H.
Qed.

(** In an ascending list, records of different groups are more than the
    threshold apart. *)
Lemma cut_separated (t : Z) (rest : list record) :
  forall (cur : list record) (r : record),
    ascending (r :: rest) ->
    Forall (fun x => snd x <= snd r) cur ->
    forall (A : list (list record)) (p : list record)
           (B : list (list record)) (q : list record)
           (C : list (list record)) (x y : record),
      cut t cur r rest = A ++ p :: B ++ q :: C ->
      In x p -> In y q -> t < delta x y.
Proof.
  unfold ascending.
  induction rest as [|r' rest IH]; intros cur r Hs Hcur A p B q C x y H Hx Hy;
    cbn [cut] in H.
  - apply (f_equal (@length _)) in H. rewrite !length_app in H.
    cbn in H. rewrite length_app in H. cbn in H. lia.
  - inversion Hs as [|? ? Hs' Hr]; subst.
    assert (Hrr' : snd r <= snd r') by (inversion Hr; assumption).
    destruct (delta r r' <=? t) eqn:Hd.
    + eapply (IH (cur ++ [r]) r' Hs'); eauto.
      apply Forall_app. split.
      * eapply Forall_impl; [|exact Hcur]. cbn. intros; lia.
      * constructor; [exact Hrr' | constructor].
    + destruct A as [|a A]; cbn [app] in H.
      * injection H as <- H2.
        assert (Hxr : snd x <= snd r).
        { apply in_app_or in Hx. destruct Hx as [Hx|[<-|[]]]; [|lia].
          rewrite Forall_forall in Hcur. now apply Hcur. }
        assert (Hyr : snd r' <= snd y).
        { assert (Hin : In y (concat (cut t [] r' rest))).
          { rewrite H2. apply in_concat. exists q. split; [|exact Hy].
            apply in_or_app. right. now left. }
          rewrite concat_cut in Hin. cbn [app] in Hin.
          destruct Hin as [<-|Hin]; [lia|].
          inversion Hs' as [|? ? _ Hall]; subst.
          rewrite Forall_forall in Hall. now apply Hall. }
        apply Z.leb_gt in Hd. unfold delta in *. lia.
      * injection H as _ H.
        eapply (IH [] r' Hs'); eauto.
Qed.

(** Neighbours that are all close give one group. *)
Lemma clusters_one_group (t : Z) (rest : list record) :
  forall (cur : list string) (r : record),
    chained t (r :: rest) ->
    clusters t cur r rest = [cur ++ map fst (r :: rest)].
Proof.
  induction rest as [|r' rest IH]; intros cur r Hc; cbn [clusters].
  - reflexivity.
  - destruct Hc as [Hd Hc]. apply Z.leb_le in Hd. rewrite Hd.
    rewrite IH by exact Hc. now rewrite <- app_assoc.
Qed.

Lemma window_chained (s t : Z) (l : list record) :
  Forall (fun r => s <= snd r <= s + t) l -> chained t l.
Proof.
  induction 1 as [|a l Ha Hl IH]; [exact I|].
  destruct l as [|b l]; [exact I|].
  split; [|exact IH]. inversion Hl; subst. unfold delta. lia.
Qed.

(** With a negative threshold an ascending list falls apart completely. *)
Lemma clusters_singletons (t : Z) (rest : list record) :
  t < 0 ->
  forall (cur : list string) (r : record),
    ascending (r :: rest) ->
    clusters t cur r rest
    = (cur ++ [fst r]) :: map (fun x => [fst x]) rest.
Proof.
  intros Ht. unfold ascending.
  induction rest as [|r' rest IH]; intros cur r Hs; cbn [clusters].
  - reflexivity.
  - inversion Hs as [|? ? Hs' Hr]; subst. inversion Hr; subst.
    replace (delta r r' <=? t) with false
      by (symmetry; apply Z.leb_gt; unfold delta; lia).
    now rewrite IH.
Qed.

Lemma clusters_shift (t k : Z) (rest : list record) :
  forall (cur : list string) (r : record),
    clusters t cur (shift k r) (map (shift k) rest) = clusters t cur r rest.
Proof.
  induction rest as [|r' rest IH]; intros cur r; cbn [clusters map].
  - reflexivity.
  - replace (delta (shift k r) (shift k r')) with (delta r r')
      by (unfold delta, shift; cbn [snd]; lia).
    cbn [shift fst]. destruct (delta r r' <=? t); now rewrite IH.
Qed.

Lemma last_cons_default {A} (M : list A) :
  forall m d : A, last (m :: M) d = last M m.
Proof.
  induction M as [|m' M IH]; intros m d; [reflexivity|].
  change (last (m :: m' :: M) d) with (last (m' :: M) d).
  now rewrite (IH m' d), (IH m' m).
Qed.

(** At a wide gap the groups of a list are the groups of its two sides. *)
Lemma clusters_app_gap (t : Z) (M : list record) :
  forall (cur : list string) (r b : record) (post : list record),
    t < delta (last M r) b ->
    clusters t cur r (M ++ b :: post)
    = clusters t cur r M ++ clusters t [] b post.
Proof.
  induction M as [|m M IH]; intros cur r b post Hg.
  - cbn [app clusters last] in *.
    replace (delta r b <=? t) with false by (symmetry; now apply Z.leb_gt).
    reflexivity.
  - cbn [app clusters].
    rewrite last_cons_default in Hg.
    destruct (delta r m <=? t); rewrite IH by exact Hg; reflexivity.
Qed.

(* ------------------------------------------------------------------ *)
(** ** [sortPhotos]: what the groups are *)

(** X1: The groups are the maximal runs of the input: inside a group every two
    neighbours are at most the threshold apart, and the last record of a
    group is more than the threshold before the first record of the next
    group. *)
Theorem sortPhotos_maximal_runs (args : Args) (timeList : list record) :
  timeList <> [] ->
  exists parts : list (list record),
    concat parts = timeList /\
    sortPhotos args timeList = Ok (map (map fst) parts) /\
    Forall (chained (args_threshold args)) parts /\
    forall (A : list (list record)) (p : list record) (x y : record)
           (q : list record) (B : list (list record)),
      parts = A ++ (p ++ [x]) :: (y :: q) :: B ->
      args_threshold args < delta x y.
Proof.
  destruct timeList as [|r rest]; [congruence|]. intros _.
  exists (cut (args_threshold args) [] r rest).
  split; [apply concat_cut|]. split; [apply sortPhotos_cut|]. split.
  - apply cut_chained. exact I.
  - intros A p x y q B H. eapply cut_boundary. exact H.
Qed.

Lemma sortPhotos_maximal_runs_witness :
  [("a.jpg", 100); ("b.jpg", 102); ("c.jpg", 110)] <> [] /\
  exists parts : list (list record),
    concat parts = [("a.jpg", 100); ("b.jpg", 102); ("c.jpg", 110)] /\
    sortPhotos (with_threshold 3)
      [("a.jpg", 100); ("b.jpg", 102); ("c.jpg", 110)]
    = Ok (map (map fst) parts) /\
    Forall (chained (args_threshold (with_threshold 3))) parts /\
    forall (A : list (list record)) (p : list record) (x y : record)
           (q : list record) (B : list (list record)),
      parts = A ++ (p ++ [x]) :: (y :: q) :: B ->
      args_threshold (with_threshold 3) < delta x y.
Proof.
  split; [discriminate|].
  apply (sortPhotos_maximal_runs (with_threshold 3)
           [("a.jpg", 100); ("b.jpg", 102); ("c.jpg", 110)]).
  discriminate.
Defined.

(** X2: On an ascending list, any two records of different groups are more
    than the threshold apart, whatever lies between them. *)
Theorem sortPhotos_separated (args : Args) (timeList : list record) :
  timeList <> [] ->
  ascending timeList ->
  exists parts : list (list record),
    concat parts = timeList /\
    sortPhotos args timeList = Ok (map (map fst) parts) /\
    forall (A : list (list record)) (p : list record)
           (B : list (list record)) (q : list record)
           (C : list (list record)) (x y : record),
      parts = A ++ p :: B ++ q :: C ->
      In x p -> In y q -> args_threshold args < delta x y.
Proof.
  destruct timeList as [|r rest]; [congruence|]. intros _ Hs.
  exists (cut (args_threshold args) [] r rest).
  split; [apply concat_cut|]. split; [apply sortPhotos_cut|].
  intros A p B q C x y H Hx Hy.
  eapply (cut_separated (args_threshold args) rest [] r Hs); eauto.
Qed.

Lemma sortPhotos_separated_witness :
  [("a.jpg", 100); ("b.jpg", 102); ("c.jpg", 110)] <> [] /\
  ascending [("a.jpg", 100); ("b.jpg", 102); ("c.jpg", 110)] /\
  exists parts : list (list record),
    concat parts = [("a.jpg", 100); ("b.jpg", 102); ("c.jpg", 110)] /\
    sortPhotos (with_threshold 3)
      [("a.jpg", 100); ("b.jpg", 102); ("c.jpg", 110)]
    = Ok (map (map fst) parts) /\
    forall (A : list (list record)) (p : list record)
           (B : list (list record)) (q : list record)
           (C : list (list record)) (x y : record),
      parts = A ++ p :: B ++ q :: C ->
      In x p -> In y q -> args_threshold (with_threshold 3) < delta x y.
Proof.
  assert (Hs : ascending [("a.jpg", 100); ("b.jpg", 102); ("c.jpg", 110)]).
  { unfold ascending. repeat constructor; cbn; lia. }
  split; [discriminate|]. split; [exact Hs|].
  apply (sortPhotos_separated (with_threshold 3)
           [("a.jpg", 100); ("b.jpg", 102); ("c.jpg", 110)]);
    [discriminate | exact Hs].
Defined.

(** X3: Records whose time stamps all lie in a window as wide as the threshold
    form one single group, in whatever order they come. *)
Theorem sortPhotos_window (args : Args) (s : Z) (timeList : list record) :
  timeList <> [] ->
  Forall (fun r => s <= snd r <= s + args_threshold args) timeList ->
  sortPhotos args timeList = Ok [map fst timeList].
Proof.
  destruct timeList as [|r rest]; [congruence|]. intros _ Hw.
  rewrite sortPhotos_clusters.
  rewrite clusters_one_group by (eapply window_chained; exact Hw).
  reflexivity.
Qed.

Lemma sortPhotos_window_witness :
  [("a.jpg", 102); ("b.jpg", 100); ("c.jpg", 103)] <> [] /\
  Forall (fun r => 100 <= snd r <= 100 + args_threshold (with_threshold 3))
    [("a.jpg", 102); ("b.jpg", 100); ("c.jpg", 103)] /\
  sortPhotos (with_threshold 3)
    [("a.jpg", 102); ("b.jpg", 100); ("c.jpg", 103)]
  = Ok [map fst [("a.jpg", 102); ("b.jpg", 100); ("c.jpg", 103)]].
Proof.
  assert (Hw : Forall
            (fun r => 100 <= snd r <= 100 + args_threshold (with_threshold 3))
            [("a.jpg", 102); ("b.jpg", 100); ("c.jpg", 103)]).
  { repeat constructor; cbn; lia. }
  split; [discriminate|]. split; [exact Hw|].
  apply (sortPhotos_window (with_threshold 3) 100
           [("a.jpg", 102); ("b.jpg", 100); ("c.jpg", 103)]);
    [discriminate | exact Hw].
Defined.

(** X4: With a negative threshold every record of an ascending list is a group
    of its own, records with equal time stamps included. *)
Theorem sortPhotos_negative_threshold (args : Args)
    (timeList : list record) :
  timeList <> [] ->
  args_threshold args < 0 ->
  ascending timeList ->
  sortPhotos args timeList = Ok (map (fun r => [fst r]) timeList).
Proof.
  destruct timeList as [|r rest]; [congruence|]. intros _ Ht Hs.
  rewrite sortPhotos_clusters.
  now rewrite (clusters_singletons (args_threshold args) rest Ht [] r Hs).
Qed.

Lemma sortPhotos_negative_threshold_witness :
  [("a.jpg", 100); ("b.jpg", 100); ("c.jpg", 103)] <> [] /\
  args_threshold (with_threshold (-1)) < 0 /\
  ascending [("a.jpg", 100); ("b.jpg", 100); ("c.jpg", 103)] /\
  sortPhotos (with_threshold (-1))
    [("a.jpg", 100); ("b.jpg", 100); ("c.jpg", 103)]
  = Ok (map (fun r => [fst r])
          [("a.jpg", 100); ("b.jpg", 100); ("c.jpg", 103)]).
Proof.
  assert (Hs : ascending [("a.jpg", 100); ("b.jpg", 100); ("c.jpg", 103)]).
  { unfold ascending. repeat constructor; cbn; lia. }
  split; [discriminate|]. split; [cbn; lia|]. split; [exact Hs|].
  apply (sortPhotos_negative_threshold (with_threshold (-1))
           [("a.jpg", 100); ("b.jpg", 100); ("c.jpg", 103)]);
    [discriminate | cbn; lia | exact Hs].
Defined.

(** X5: Moving every time stamp by the same number of seconds changes nothing:
    the same groups are returned, and the empty list raises as before. *)
Theorem sortPhotos_shift (args : Args) (k : Z) (timeList : list record) :
  sortPhotos args (map (shift k) timeList) = sortPhotos args timeList.
Proof.
  destruct timeList as [|r rest]; [reflexivity|].
  cbn [map]. rewrite !sortPhotos_clusters. now rewrite clusters_shift.
Qed.

(** X6: Where two neighbours are more than the threshold apart the list can be
    cut: the groups of the whole are the groups of the part up to the
    first of the two, followed by the groups of the part from the second
    on. *)
Theorem sortPhotos_app_gap (args : Args) (pre : list record)
    (a b : record) (post : list record) :
  args_threshold args < delta a b ->
  exists g1 g2 : list (list string),
    sortPhotos args (pre ++ [a]) = Ok g1 /\
    sortPhotos args (b :: post) = Ok g2 /\
    sortPhotos args ((pre ++ [a]) ++ b :: post) = Ok (g1 ++ g2).
Proof.
  intros Hg. set (t := args_threshold args) in *.
  destruct pre as [|r pre].
  - exists (clusters t [] a []), (clusters t [] b post).
    cbn [app]. rewrite !sortPhotos_clusters. fold t.
    split; [reflexivity|]. split; [reflexivity|]. f_equal.
    exact (clusters_app_gap t [] [] a b post Hg).
  - exists (clusters t [] r (pre ++ [a])), (clusters t [] b post).
    cbn [app]. rewrite !sortPhotos_clusters. fold t.
    split; [reflexivity|]. split; [reflexivity|]. f_equal.
    apply (clusters_app_gap t (pre ++ [a]) [] r b post).
    now rewrite last_last.
Qed.

Lemma sortPhotos_app_gap_witness :
  args_threshold (with_threshold 3) < delta ("b.jpg", 102) ("c.jpg", 110) /\
  exists g1 g2 : list (list string),
    sortPhotos (with_threshold 3) ([("a.jpg", 100)] ++ [("b.jpg", 102)])
    = Ok g1 /\
    sortPhotos (with_threshold 3) (("c.jpg", 110) :: [("d.jpg", 111)])
    = Ok g2 /\
    sortPhotos (with_threshold 3)
      (([("a.jpg", 100)] ++ [("b.jpg", 102)])
         ++ ("c.jpg", 110) :: [("d.jpg", 111)])
    = Ok (g1 ++ g2).
Proof.
  split; [cbn; lia|].
  apply (sortPhotos_app_gap (with_threshold 3) [("a.jpg", 100)]
           ("b.jpg", 102) ("c.jpg", 110) [("d.jpg", 111)]).
  cbn. lia.
Defined.

(* ------------------------------------------------------------------ *)
(** ** [sorted]: a stable sort *)

Lemma insert_by_unix_filter (k : Z) (x : record) (l : list record) :
  filter (fun r => snd r =? k) (insert_by_unix x l)
  = filter (fun r => snd r =? k) (x :: l).
Proof.
  induction l as [|y l IH]; cbn [insert_by_unix]; [reflexivity|].
  destruct (snd x <=? snd y) eqn:Hxy; [reflexivity|].
  cbn [filter] in *. rewrite IH.
  destruct (snd x =? k) eqn:Hx, (snd y =? k) eqn:Hy; try reflexivity.
  lia.
Qed.

Lemma sorted_of_ascending (l : list record) : ascending l -> sorted l = l.
Proof.
  unfold ascending. induction 1 as [|x l Hl IH Hx]; [reflexivity|].
  cbn [sorted fold_right]. fold (sorted l). rewrite IH.
  destruct l as [|y l]; [reflexivity|].
  cbn [insert_by_unix]. inversion Hx; subst.
  replace (snd x <=? snd y) with true by (symmetry; now apply Z.leb_le).
  reflexivity.
Qed.

(** X7: The sort of [main] returns the records it was given, ascending by
    time stamp, and records with the same time stamp stay in the order in
    which they came. *)
Theorem sorted_stable (timeList : list record) :
  Permutation (sorted timeList) timeList /\
  ascending (sorted timeList) /\
  forall k : Z,
    filter (fun r => snd r =? k) (sorted timeList)
    = filter (fun r => snd r =? k) timeList.
Proof.
  split; [apply sorted_perm|]. split; [apply sorted_ascending|].
  intros k. induction timeList as [|x l IH]; [reflexivity|].
  cbn [sorted fold_right]. fold (sorted l).
  rewrite insert_by_unix_filter. cbn [filter]. now rewrite IH.
Qed.

(** X8: Sorting leaves an ascending list as it is, so sorting twice is sorting
    once. *)
Theorem sorted_idempotent (timeList : list record) :
  (ascending timeList -> sorted timeList = timeList) /\
  sorted (sorted timeList) = sorted timeList.
Proof.
  split; [apply sorted_of_ascending|].
  apply sorted_of_ascending, sorted_ascending.
Qed.

Lemma sorted_idempotent_witness :
  ascending [("a.jpg", 100); ("b.jpg", 100); ("c.jpg", 103)] /\
  sorted [("a.jpg", 100); ("b.jpg", 100); ("c.jpg", 103)]
  = [("a.jpg", 100); ("b.jpg", 100); ("c.jpg", 103)].
Proof.
  assert (Hs : ascending [("a.jpg", 100); ("b.jpg", 100); ("c.jpg", 103)]).
  { unfold ascending. repeat constructor; cbn; lia. }
  split; [exact Hs|].
  exact (proj1 (sorted_idempotent
                  [("a.jpg", 100); ("b.jpg", 100); ("c.jpg", 103)]) Hs).
Defined.

(* ------------------------------------------------------------------ *)
(** ** Facts about strings *)

Lemma append_assoc (s1 s2 s3 : string) :
  ((s1 ++ s2) ++ s3 = s1 ++ s2 ++ s3)%string.
Proof. induction s1 as [|c s1 IH]; cbn; [reflexivity | now rewrite IH]. Qed.

Lemma append_nil_r (s : string) : (s ++ "" = s)%string.
Proof. induction s as [|c s IH]; cbn; [reflexivity | now rewrite IH]. Qed.

Lemma list_ascii_of_string_app (s1 s2 : string) :
  list_ascii_of_string (s1 ++ s2)
  = list_ascii_of_string s1 ++ list_ascii_of_string s2.
Proof. induction s1 as [|c s1 IH]; cbn; [reflexivity | now rewrite IH]. Qed.

(** A string that ends with the separator has it at [-1]. *)
Lemma str_getitem_sep (d : string) :
  str_getitem (d ++ os_sep)%string (-1) = Ok os_sep.
Proof.
  unfold str_getitem. rewrite list_ascii_of_string_app.
  change (list_ascii_of_string os_sep) with ["/"%char].
  now rewrite getitem_last.
Qed.

(** [s[-1]] raises exactly on the empty string. *)
Lemma str_getitem_last (s : string) :
  match str_getitem s (-1) with
  | Ok _ => s <> ""
  | Raise e => e = IndexError /\ s = ""
  end.
Proof.
  destruct s as [|c s]; [now split|].
  unfold str_getitem.
  destruct (exists_last (l := list_ascii_of_string (String c s)))
    as (l & a & Hl); [discriminate|].
  rewrite Hl, getitem_last. discriminate.
Qed.

(* ------------------------------------------------------------------ *)
(** ** The filter loop of [getFileList] *)

Lemma list_remove_middle (x : string) (pre : list string) :
  forall suf : list string,
    ~ In x pre -> list_remove x (pre ++ x :: suf) = Ok (pre ++ suf).
Proof.
  induction pre as [|y pre IH]; intros suf Hx; cbn [app list_remove].
  - now rewrite String.eqb_refl.
  - replace (y =? x)%string with false
      by (symmetry; apply String.eqb_neq; intros ->; apply Hx; now left).
    rewrite IH by (intros H; apply Hx; now right). reflexivity.
Qed.

(** Past the end of the list the loop stops at once. *)
Lemma remove_loop_end (fuel i : nat) (l : list string) :
  (length l <= i)%nat -> remove_loop fuel i l = Ok l.
Proof.
  intros Hi. destruct fuel as [|fuel]; [reflexivity|]. cbn [remove_loop].
  now rewrite (proj2 (nth_error_None l i) Hi).
Qed.

(** The loop over a listing without repeated names, at position
    [length pre]: every amount of fuel that covers the rest of the list
    gives the same result, [sweep] of that rest behind the prefix. *)
Lemma remove_loop_sweep (fuel : nat) :
  forall pre suf : list string,
    NoDup (pre ++ suf) ->
    (length suf <= fuel)%nat ->
    remove_loop fuel (length pre) (pre ++ suf) = Ok (pre ++ sweep suf).
Proof.
  induction fuel as [|fuel IH]; intros pre suf Hnd Hf.
  - destruct suf; [reflexivity | cbn in Hf; lia].
  - cbn [remove_loop]. rewrite nth_error_app2, Nat.sub_diag by lia.
    destruct suf as [|x suf]; [reflexivity|]. cbn [nth_error sweep].
    cbn [length] in Hf.
    destruct (is_jpg x) eqn:Hx; cbn [negb].
    + specialize (IH (pre ++ [x]) suf).
      rewrite <- !app_assoc, length_app, Nat.add_1_r in IH. cbn [app] in IH.
      apply IH; [exact Hnd | lia].
    + rewrite list_remove_middle
        by (apply NoDup_remove_2 in Hnd; intros H; apply Hnd;
            apply in_or_app; now left).
      cbn [bind]. apply NoDup_remove_1 in Hnd.
      destruct suf as [|y suf].
      * apply remove_loop_end. rewrite app_nil_r. lia.
      * specialize (IH (pre ++ [y]) suf).
        rewrite <- !app_assoc, length_app, Nat.add_1_r in IH.
        cbn [app] in IH. cbn [length] in Hf.
        apply IH; [exact Hnd | lia].
Qed.

(** [getFileList] on a directory name that ends with the separator. *)
Lemma getFileList_dir (walk : string -> list string) (dir : string) :
  str_getitem dir (-1) = Ok os_sep ->
  NoDup (walk dir) ->
  getFileList walk dir
  = Ok (map (fun filename => (dir ++ filename)%string) (sweep (walk dir))).
Proof.
  intros Hc Hnd. unfold getFileList. rewrite Hc. cbn [bind].
  rewrite String.eqb_refl. cbn [negb].
  pose proof (remove_loop_sweep (length (walk dir)) [] (walk dir) Hnd
                (le_n _)) as Hl.
  cbn [app length] in Hl. rewrite Hl. reflexivity.
Qed.

Lemma sweep_props (n : nat) :
  forall l : list string,
    (length l <= n)%nat ->
    (forall x, In x (sweep l) -> In x l) /\
    (forall x, In x l -> is_jpg x = true -> In x (sweep l)) /\
    (no_twin_rejects l -> sweep l = filter is_jpg l).
Proof.
  induction n as [|n IH]; intros l Hl.
  - destruct l; [|cbn in Hl; lia]. cbn. repeat split; auto.
  - destruct l as [|x l]; [cbn; repeat split; auto|].
    cbn [length] in Hl. cbn [sweep filter].
    destruct (IH l ltac:(lia)) as (I1 & I2 & I3).
    destruct (is_jpg x) eqn:Hx.
    + split; [|split].
      * intros z [<-|Hz]; [now left | right; now apply I1].
      * intros z [<-|Hz] Hj; [now left | right; now apply I2].
      * intros Hn. f_equal. apply I3.
        destruct l; [exact I | exact (proj2 Hn)].
    + destruct l as [|y l].
      * split; [intros z []|]. split; [|reflexivity].
        intros z [<-|[]] Hj. congruence.
      * cbn [length] in Hl.
        destruct (IH l ltac:(lia)) as (J1 & J2 & J3).
        split; [|split].
        -- intros z [<-|Hz]; [right; now left | right; right; now apply J1].
        -- intros z [<-|[<-|Hz]] Hj;
             [congruence | now left | right; now apply J2].
        -- intros [[Hj|Hj] Hn]; [congruence|].
           cbn [filter]. rewrite Hj. f_equal. apply J3.
           destruct l; [exact I | exact (proj2 Hn)].
Qed.

Lemma sweep_passes_over (pre : list string) (x y : string)
    (post : list string) :
  Forall (fun name => is_jpg name = true) pre ->
  is_jpg x = false ->
  sweep (pre ++ x :: y :: post) = pre ++ y :: sweep post.
Proof.
  intros Hpre Hx. induction Hpre as [|a pre Ha _ IH]; cbn [app sweep].
  - now rewrite Hx.
  - now rewrite Ha, IH.
Qed.

(* ------------------------------------------------------------------ *)
(** ** [getFileList] *)

(** X9: On a directory whose listing has no repeated name, [getFileList]
    returns for every directory name but the empty one, where the
    subscript [path[-1]] raises [IndexError]. *)
Theorem getFileList_raises_iff (walk : string -> list string)
    (path : string) :
  (forall p : string, NoDup (walk p)) ->
  match getFileList walk path with
  | Ok _ => path <> ""
  | Raise e => e = IndexError /\ path = ""
  end.
Proof.
  intros Hnd. pose proof (str_getitem_last path) as Hp.
  unfold getFileList.
  destruct (str_getitem path (-1)) as [c|e]; cbn [bind]; [|exact Hp].
  match goal with
  | |- context [remove_loop _ 0 (walk ?d)] =>
      pose proof (remove_loop_sweep (length (walk d)) [] (walk d)
                    (Hnd d) (le_n _)) as Hl
  end.
  cbn [app length] in Hl. rewrite Hl. exact Hp.
Qed.

Lemma sample_walk_NoDup (p : string) : NoDup (sample_walk p).
Proof.
  unfold sample_walk. destruct (p =? "photos/")%string; [|constructor].
  repeat constructor; cbn; intuition discriminate.
Qed.

Lemma getFileList_raises_iff_witness :
  (forall p : string, NoDup (sample_walk p)) /\
  match getFileList sample_walk "photos" with
  | Ok _ => "photos" <> ""
  | Raise e => e = IndexError /\ "photos" = ""
  end.
Proof.
  split; [exact sample_walk_NoDup|].
  exact (getFileList_raises_iff sample_walk "photos" sample_walk_NoDup).
Defined.

(** X10: A directory name without the separator at its end gives what the same
    name with the separator gives. *)
Theorem getFileList_trailing_sep (walk : string -> list string)
    (d c : string) :
  str_getitem d (-1) = Ok c ->
  c <> os_sep ->
  getFileList walk d = getFileList walk (d ++ os_sep)%string.
Proof.
  intros Hc Hsep. unfold getFileList.
  rewrite Hc, str_getitem_sep. cbn [bind].
  rewrite (proj2 (String.eqb_neq c os_sep) Hsep), String.eqb_refl.
  reflexivity.
Qed.

Lemma getFileList_trailing_sep_witness :
  str_getitem "photos" (-1) = Ok "s" /\
  "s" <> os_sep /\
  getFileList sample_walk "photos"
  = getFileList sample_walk ("photos" ++ os_sep)%string.
Proof.
  split; [reflexivity|]. split; [discriminate|].
  apply (getFileList_trailing_sep sample_walk "photos" "s");
    [reflexivity | discriminate].
Defined.

(** X11: Every JPG name of the listing is returned, behind the directory name,
    and nothing is returned that is not in the listing. *)
Theorem getFileList_keeps_jpg (walk : string -> list string)
    (dir : string) :
  str_getitem dir (-1) = Ok os_sep ->
  NoDup (walk dir) ->
  exists fileList : list string,
    getFileList walk dir = Ok fileList /\
    (forall name : string,
       In name (walk dir) -> is_jpg name = true ->
       In (dir ++ name)%string fileList) /\
    (forall file : string,
       In file fileList ->
       exists name : string,
         file = (dir ++ name)%string /\ In name (walk dir)).
Proof.
  intros Hc Hnd. rewrite (getFileList_dir walk dir Hc Hnd).
  destruct (sweep_props (length (walk dir)) (walk dir) (le_n _))
    as (S1 & S2 & _).
  eexists. split; [reflexivity|]. split.
  - intros name Hin Hj.
    apply (in_map (fun filename => (dir ++ filename)%string)).
    now apply S2.
  - intros file Hin. apply in_map_iff in Hin.
    destruct Hin as (name & <- & Hin). exists name. split; auto.
Qed.

Lemma getFileList_keeps_jpg_witness :
  str_getitem "photos/" (-1) = Ok os_sep /\
  NoDup (sample_walk "photos/") /\
  exists fileList : list string,
    getFileList sample_walk "photos/" = Ok fileList /\
    (forall name : string,
       In name (sample_walk "photos/") -> is_jpg name = true ->
       In ("photos/" ++ name)%string fileList) /\
    (forall file : string,
       In file fileList ->
       exists name : string,
         file = ("photos/" ++ name)%string /\
         In name (sample_walk "photos/")).
Proof.
  split; [reflexivity|]. split; [apply sample_walk_NoDup|].
  apply (getFileList_keeps_jpg sample_walk "photos/");
    [reflexivity | apply sample_walk_NoDup].
Defined.

(** X12: The filter passes over the name that follows a name it removes: when
    the listing starts with JPG names, then has a name [x] that is no JPG
    and then any name [y], [x] is removed and [y] is returned untested,
    JPG or not. *)
Theorem getFileList_passes_over (walk : string -> list string)
    (dir : string) (pre : list string) (x y : string)
    (post : list string) :
  str_getitem dir (-1) = Ok os_sep ->
  NoDup (walk dir) ->
  walk dir = pre ++ x :: y :: post ->
  Forall (fun name => is_jpg name = true) pre ->
  is_jpg x = false ->
  getFileList walk dir
  = Ok (map (fun filename => (dir ++ filename)%string)
          (pre ++ y :: sweep post)).
Proof.
  intros Hc Hnd Hw Hpre Hx.
  rewrite (getFileList_dir walk dir Hc Hnd), Hw.
  now rewrite sweep_passes_over.
Qed.

Lemma getFileList_passes_over_witness :
  str_getitem "photos/" (-1) = Ok os_sep /\
  NoDup (sample_walk "photos/") /\
  sample_walk "photos/"
  = ["b0.jpg"] ++ "notes.txt" :: "todo.txt" :: ["b1.JPG"; "b2.jpg"] /\
  Forall (fun name => is_jpg name = true) ["b0.jpg"] /\
  is_jpg "notes.txt" = false /\
  is_jpg "todo.txt" = false /\
  getFileList sample_walk "photos/"
  = Ok (map (fun filename => ("photos/" ++ filename)%string)
          (["b0.jpg"] ++ "todo.txt" :: sweep ["b1.JPG"; "b2.jpg"])).
Proof.
  split; [reflexivity|]. split; [apply sample_walk_NoDup|].
  split; [reflexivity|]. split; [repeat constructor|].
  split; [reflexivity|]. split; [reflexivity|].
  apply (getFileList_passes_over sample_walk "photos/" ["b0.jpg"]
           "notes.txt" "todo.txt" ["b1.JPG"; "b2.jpg"]);
    [reflexivity | apply sample_walk_NoDup | reflexivity
    | repeat constructor | reflexivity].
Defined.

(** X13: When no two names that are no JPG stand next to each other in the
    listing, exactly the JPG names are returned, in the order of the
    listing. *)
Theorem getFileList_exact (walk : string -> list string) (dir : string) :
  str_getitem dir (-1) = Ok os_sep ->
  NoDup (walk dir) ->
  no_twin_rejects (walk dir) ->
  getFileList walk dir
  = Ok (map (fun filename => (dir ++ filename)%string)
          (filter is_jpg (walk dir))).
Proof.
  intros Hc Hnd Hn. rewrite (getFileList_dir walk dir Hc Hnd).
  destruct (sweep_props (length (walk dir)) (walk dir) (le_n _))
    as (_ & _ & S3).
  now rewrite S3.
Qed.

Lemma getFileList_exact_witness :
  str_getitem "dir/" (-1) = Ok os_sep /\
  NoDup ((fun _ : string => ["a.jpg"; "x.txt"; "b.JPG"; "y.png"]) "dir/") /\
  no_twin_rejects
    ((fun _ : string => ["a.jpg"; "x.txt"; "b.JPG"; "y.png"]) "dir/") /\
  getFileList (fun _ => ["a.jpg"; "x.txt"; "b.JPG"; "y.png"]) "dir/"
  = Ok (map (fun filename => ("dir/" ++ filename)%string)
          (filter is_jpg
             ((fun _ : string => ["a.jpg"; "x.txt"; "b.JPG"; "y.png"])
                "dir/"))).
Proof.
  assert (Hnd : NoDup ["a.jpg"; "x.txt"; "b.JPG"; "y.png"]).
  { repeat constructor; cbn; intuition discriminate. }
  assert (Hn : no_twin_rejects ["a.jpg"; "x.txt"; "b.JPG"; "y.png"]).
  { cbn. intuition. }
  split; [reflexivity|]. split; [exact Hnd|]. split; [exact Hn|].
  apply (getFileList_exact
           (fun _ => ["a.jpg"; "x.txt"; "b.JPG"; "y.png"]) "dir/");
    [reflexivity | exact Hnd | exact Hn].
Defined.

(* ------------------------------------------------------------------ *)
(** ** [setupLogger] *)

(** X15: For every count of [-v] the level is found inside the list: WARNING
    without [-v], INFO for one, DEBUG for two and for any larger count. *)
Theorem setupLogger_level (args : Args) :
  0 <= args_verbose args ->
  setupLogger args
  = Ok (if args_verbose args =? 0 then WARNING
        else if args_verbose args =? 1 then INFO
        else DEBUG).
Proof.
  intros Hv. unfold setupLogger.
  change (len levels - 1) with 2.
  destruct (Z.eq_dec (args_verbose args) 0) as [->|H0]; [reflexivity|].
  destruct (Z.eq_dec (args_verbose args) 1) as [->|H1]; [reflexivity|].
  rewrite Z.min_r by lia.
  rewrite (proj2 (Z.eqb_neq _ _) H0), (proj2 (Z.eqb_neq _ _) H1).
  reflexivity.
Qed.

Lemma setupLogger_level_witness :
  0 <= args_verbose (mkArgs "photos" 7 3 false None) /\
  setupLogger (mkArgs "photos" 7 3 false None)
  = Ok (if args_verbose (mkArgs "photos" 7 3 false None) =? 0 then WARNING
        else if args_verbose (mkArgs "photos" 7 3 false None) =? 1 then INFO
        else DEBUG).
Proof.
  split; [cbn; lia|].
  apply (setupLogger_level (mkArgs "photos" 7 3 false None)). cbn. lia.
Defined.

(* ------------------------------------------------------------------ *)
(** ** [exportResult] without the fallback *)

(** X16: Without [-e] the separator at the end of [args.path] does not matter:
    the report goes to the same file. *)
Theorem exportResult_trailing_sep (can_write : string -> bool)
    (args1 args2 : Args) (c : string)
    (grouped : list (list string)) (fs : Files) :
  args_export args1 = None ->
  args_export args2 = None ->
  str_getitem (args_path args1) (-1) = Ok c ->
  c <> os_sep ->
  args_path args2 = (args_path args1 ++ os_sep)%string ->
  exportResult can_write args1 grouped fs
  = exportResult can_write args2 grouped fs.
Proof.
  intros He1 He2 Hc Hsep Hp. unfold exportResult.
  rewrite He1, He2, Hp, Hc, str_getitem_sep. cbn [bind].
  rewrite (proj2 (String.eqb_neq c os_sep) Hsep), String.eqb_refl.
  cbn [negb]. now rewrite append_assoc.
Qed.

Lemma exportResult_trailing_sep_witness :
  args_export (with_threshold 3) = None /\
  args_export (mkArgs "photos/" 0 3 false None) = None /\
  str_getitem (args_path (with_threshold 3)) (-1) = Ok "s" /\
  "s" <> os_sep /\
  args_path (mkArgs "photos/" 0 3 false None)
  = (args_path (with_threshold 3) ++ os_sep)%string /\
  exportResult (fun _ => true) (with_threshold 3) [["a.jpg"]] []
  = exportResult (fun _ => true) (mkArgs "photos/" 0 3 false None)
      [["a.jpg"]] [].
Proof.
  split; [reflexivity|]. split; [reflexivity|]. split; [reflexivity|].
  split; [discriminate|]. split; [reflexivity|].
  apply (exportResult_trailing_sep (fun _ => true) (with_threshold 3)
           (mkArgs "photos/" 0 3 false None) "s" [["a.jpg"]] []);
    [reflexivity | reflexivity | reflexivity | discriminate | reflexivity].
Defined.

(** X17: When [exportResult] returns, it has written exactly one report on top
    of the files that were there, to a path that could be written: the
    path given with [-e] if there is one, else [result.txt] under
    [args.path]. *)
Theorem exportResult_one_file (can_write : string -> bool) (args : Args)
    (grouped : list (list string)) (fs fs' : Files) :
  exportResult can_write args grouped fs = Ok fs' ->
  exists p : string,
    fs' = (p, grouped) :: fs /\
    can_write p = true /\
    match args_export args with
    | Some e => p = e
    | None => default_path args = Ok p
    end.
Proof.
  unfold exportResult, default_path, writeResults.
  destruct (args_export args) as [e|].
  - destruct (can_write e) eqn:Hw; [|discriminate].
    intros [= <-]. now exists e.
  - destruct (str_getitem (args_path args) (-1)) as [c|]; [|discriminate].
    cbn [bind].
    match goal with
    | |- context [can_write ?q] => destruct (can_write q) eqn:Hw
    end; [|discriminate].
    intros [= <-]. eexists. repeat split. exact Hw.
Qed.

Lemma exportResult_one_file_witness :
  exportResult (fun _ => true) (with_export "photos" "out.txt")
    [["a.jpg"]] [("old.txt", [])]
  = Ok [("out.txt", [["a.jpg"]]); ("old.txt", [])] /\
  exists p : string,
    [("out.txt", [["a.jpg"]]); ("old.txt", [])]
    = (p, [["a.jpg"]]) :: [("old.txt", [])] /\
    (fun _ : string => true) p = true /\
    match args_export (with_export "photos" "out.txt") with
    | Some e => p = e
    | None => default_path (with_export "photos" "out.txt") = Ok p
    end.
Proof.
  split; [reflexivity|].
  apply (exportResult_one_file (fun _ => true)
           (with_export "photos" "out.txt") [["a.jpg"]] [("old.txt", [])]).
  reflexivity.
Defined.

(* ------------------------------------------------------------------ *)
(** ** [os.path.basename] and the archives *)

Lemma basename_from_no_sep (name : string) :
  forall acc : string,
    no_sep name -> basename_from acc name = (acc ++ name)%string.
Proof.
  induction name as [|c name IH]; intros acc Hn; cbn [basename_from].
  - now rewrite append_nil_r.
  - destruct Hn as [Hc Hn].
    rewrite (proj2 (Ascii.eqb_neq c "/") Hc), IH by exact Hn.
    now rewrite append_assoc.
Qed.

Lemma basename_from_app (p name : string) :
  forall acc : string,
    no_sep name ->
    basename_from acc (p ++ os_sep ++ name)%string = name.
Proof.
  induction p as [|c p IH]; intros acc Hn.
  - cbn. now rewrite basename_from_no_sep.
  - cbn [append basename_from]. destruct (c =? "/")%char; now apply IH.
Qed.

(** The last component of a path that was put together from a directory
    and a name is the name. *)
Lemma basename_app (p name : string) :
  no_sep name -> basename (p ++ os_sep ++ name)%string = name.
Proof. apply basename_from_app. Qed.

Lemma zf_write_loop (pk : Packer) (zipPath : string)
    (filenames : list string) :
  forall members : list (string * string),
    (forall f, In f filenames -> zip_write pk zipPath f = Ok tt) ->
    for_each filenames (zf_write pk zipPath) members
    = Ok (members ++ map (fun f => (basename f, f)) filenames).
Proof.
  induction filenames as [|f l IH]; intros members Hr; cbn [for_each map].
  - now rewrite app_nil_r.
  - unfold zf_write at 1. rewrite (Hr f) by now left. cbn [bind].
    rewrite IH by (intros g Hg; apply Hr; now right).
    now rewrite <- app_assoc.
Qed.

(** The path of the archive of a group, as [zipPhotosInList] builds it from
    [args.path], is the one [archive_of] gives for the directory name with
    the separator at its end. *)
Lemma zipPath_archive_of (args : Args) (c first : string)
    (rest : list string) :
  (if negb (c =? os_sep)%string
   then (args_path args ++ os_sep ++ "packaged" ++ os_sep
         ++ basename first ++ ".zip")%string
   else (args_path args ++ "packaged" ++ os_sep
         ++ basename first ++ ".zip")%string)
  = fst (archive_of (if negb (c =? os_sep)%string
                     then (args_path args ++ os_sep)%string
                     else args_path args) (first :: rest)).
Proof.
  unfold archive_of. cbn [fst hd].
  destruct (negb (c =? os_sep)%string); [|reflexivity].
  now rewrite append_assoc.
Qed.

(** One call of [zipPhotosInList] on a group with a first file, when every
    call to the file system returns. *)
Lemma zipPhotosInList_ok (pk : Packer) (args : Args)
    (c : string) (group : list string) (zips : list Archive) :
  str_getitem (args_path args) (-1) = Ok c ->
  group <> [] ->
  packs pk (if negb (c =? os_sep)%string
            then (args_path args ++ os_sep)%string
            else args_path args) group ->
  zipPhotosInList pk args group zips
  = Ok (zips ++
        [archive_of (if negb (c =? os_sep)%string
                     then (args_path args ++ os_sep)%string
                     else args_path args) group]).
Proof.
  intros Hc Hg (Ho & Hw & Hcl). destruct group as [|first rest]; [congruence|].
  unfold zipPhotosInList. rewrite Hc. cbn [bind].
  change (getitem (first :: rest) 0) with (Ok first). cbn [bind].
  rewrite (zipPath_archive_of args c first rest).
  rewrite Ho. cbn [bind].
  rewrite zf_write_loop by exact Hw. cbn [bind app].
  rewrite Hcl. cbn [bind]. reflexivity.
Qed.

Lemma zip_loop_ok (pk : Packer) (args : Args) (c : string)
    (grouped : list (list string)) :
  str_getitem (args_path args) (-1) = Ok c ->
  Forall (fun group => group <> []) grouped ->
  Forall (packs pk (if negb (c =? os_sep)%string
                    then (args_path args ++ os_sep)%string
                    else args_path args)) grouped ->
  forall zips : list Archive,
    for_each grouped (zipPhotosInList pk args) zips
    = Ok (zips ++
          map (archive_of (if negb (c =? os_sep)%string
                           then (args_path args ++ os_sep)%string
                           else args_path args)) grouped).
Proof.
  intros Hc Hne Hp.
  induction grouped as [|g grouped IH]; intros zips.
  - cbn. now rewrite app_nil_r.
  - inversion Hne; subst. inversion Hp; subst. cbn [for_each map].
    rewrite (zipPhotosInList_ok pk args c g zips) by assumption.
    cbn [bind]. rewrite IH by assumption. now rewrite <- app_assoc.
Qed.

(** X18: packaging the groups [sortPhotos] returns never fails on
    [filenames[0]]: for a non-empty list of records and a non-empty
    [args.path], when [mkdir] returns and the opening, every write and the
    closing of the archive of every group return, one archive is written
    for each group, in the order of the groups, named after the first file
    of the group, and it holds every file of the group under its last path
    component. *)
Theorem packagePhotos_after_sortPhotos (pk : Packer)
    (args : Args) (c : string) (timeList : list record)
    (dirs : list string) (zips : list Archive) :
  timeList <> [] ->
  str_getitem (args_path args) (-1) = Ok c ->
  exists grouped : list (list string),
    sortPhotos args timeList = Ok grouped /\
    (mkdir pk (args_path args ++ os_sep ++ "packaged")%string = Ok tt ->
     Forall (packs pk (if negb (c =? os_sep)%string
                       then (args_path args ++ os_sep)%string
                       else args_path args)) grouped ->
     packagePhotos pk args grouped (dirs, zips)
     = Ok (dirs ++ [(args_path args ++ os_sep ++ "packaged")%string],
           zips ++
           map (archive_of (if negb (c =? os_sep)%string
                            then (args_path args ++ os_sep)%string
                            else args_path args)) grouped)).
Proof.
  intros Hne Hc. destruct timeList as [|r rest]; [congruence|].
  exists (clusters (args_threshold args) [] r rest).
  split; [apply sortPhotos_clusters|]. intros Hm Hp.
  unfold packagePhotos. rewrite Hm. cbn [bind].
  rewrite (zip_loop_ok pk args c _ Hc (clusters_nonempty _ _ _ _) Hp).
  reflexivity.
Qed.

Lemma easy_packer_packs (dir : string) (group : list string) :
  packs easy_packer dir group.
Proof. repeat split. Qed.

Lemma packagePhotos_after_sortPhotos_witness :
  [("photos/a.jpg", 100); ("photos/b.jpg", 101); ("photos/c.jpg", 200)]
  <> [] /\
  str_getitem (args_path (with_package "photos")) (-1) = Ok "s" /\
  exists grouped : list (list string),
    sortPhotos (with_package "photos")
      [("photos/a.jpg", 100); ("photos/b.jpg", 101); ("photos/c.jpg", 200)]
    = Ok grouped /\
    (mkdir easy_packer
       (args_path (with_package "photos") ++ os_sep ++ "packaged")%string
     = Ok tt ->
     Forall (packs easy_packer
               (if negb ("s" =? os_sep)%string
                then (args_path (with_package "photos") ++ os_sep)%string
                else args_path (with_package "photos"))) grouped ->
     packagePhotos easy_packer (with_package "photos") grouped ([], [])
     = Ok ([] ++ [(args_path (with_package "photos") ++ os_sep
                   ++ "packaged")%string],
           [] ++
           map (archive_of
                  (if negb ("s" =? os_sep)%string
                   then (args_path (with_package "photos") ++ os_sep)%string
                   else args_path (with_package "photos"))) grouped)).
Proof.
  split; [discriminate|]. split; [reflexivity|].
  apply (packagePhotos_after_sortPhotos easy_packer
           (with_package "photos") "s"
           [("photos/a.jpg", 100); ("photos/b.jpg", 101);
            ("photos/c.jpg", 200)] [] []);
    [discriminate | reflexivity].
Defined.

Example packagePhotos_run :
  packagePhotos easy_packer (with_package "photos")
    [["photos/a.jpg"; "photos/b.jpg"]; ["photos/c.jpg"]] ([], [])
  = Ok (["photos/packaged"],
        [("photos/packaged/a.jpg.zip",
          [("a.jpg", "photos/a.jpg"); ("b.jpg", "photos/b.jpg")]);
         ("photos/packaged/c.jpg.zip", [("c.jpg", "photos/c.jpg")])]).
Proof. reflexivity. Qed.

(** A file the archive cannot take stops the packaging with the exception
    of that write. *)
Example packagePhotos_old_file :
  packagePhotos
    (mkPacker (fun _ => Ok tt) (fun _ => Ok tt)
       (fun _ f => if (f =? "photos/b.jpg")%string
                   then Raise ValueError else Ok tt)
       (fun _ => Ok tt))
    (with_package "photos")
    [["photos/a.jpg"; "photos/b.jpg"]; ["photos/c.jpg"]] ([], [])
  = Raise ValueError.
Proof. reflexivity. Qed.

(** X19: a group without a file makes [zipPhotosInList] raise [IndexError]
    at [filenames[0]], before the file system is touched for it, and with
    it [packagePhotos], whatever groups stand before and behind it, once
    [mkdir] and the packaging of the groups before it have returned. *)
Theorem packagePhotos_empty_group (pk : Packer)
    (args : Args) (c : string) (before after : list (list string))
    (disk : Disk) :
  str_getitem (args_path args) (-1) = Ok c ->
  mkdir pk (args_path args ++ os_sep ++ "packaged")%string = Ok tt ->
  Forall (fun group => group <> []) before ->
  Forall (packs pk (if negb (c =? os_sep)%string
                    then (args_path args ++ os_sep)%string
                    else args_path args)) before ->
  (forall zips : list Archive,
     zipPhotosInList pk args [] zips = Raise IndexError) /\
  packagePhotos pk args (before ++ [] :: after) disk
  = Raise IndexError.
Proof.
  intros Hc Hm Hne Hp.
  assert (Hz : forall zips : list Archive,
             zipPhotosInList pk args [] zips = Raise IndexError).
  { intros zips. unfold zipPhotosInList. rewrite Hc. reflexivity. }
  split; [exact Hz|].
  destruct disk as [dirs zips]. unfold packagePhotos.
  rewrite Hm. cbn [bind].
  assert (Hl : for_each (before ++ [] :: after)
                 (zipPhotosInList pk args) zips = Raise IndexError).
  { revert zips. induction before as [|g before IH]; intros zips.
    - cbn [app for_each]. now rewrite Hz.
    - inversion Hne; subst. inversion Hp; subst. cbn [app for_each].
      rewrite (zipPhotosInList_ok pk args c g zips) by assumption.
      cbn [bind]. now apply IH. }
  now rewrite Hl.
Qed.

Lemma packagePhotos_empty_group_witness :
  str_getitem (args_path (with_package "photos")) (-1) = Ok "s" /\
  mkdir easy_packer
    (args_path (with_package "photos") ++ os_sep ++ "packaged")%string
  = Ok tt /\
  Forall (fun group : list string => group <> []) [["photos/a.jpg"]] /\
  Forall (packs easy_packer
            (if negb ("s" =? os_sep)%string
             then (args_path (with_package "photos") ++ os_sep)%string
             else args_path (with_package "photos")))
    [["photos/a.jpg"]] /\
  (forall zips : list Archive,
     zipPhotosInList easy_packer (with_package "photos") [] zips
     = Raise IndexError) /\
  packagePhotos easy_packer (with_package "photos")
    ([["photos/a.jpg"]] ++ [] :: [["photos/b.jpg"]]) ([], [])
  = Raise IndexError.
Proof.
  assert (Hne : Forall (fun group : list string => group <> [])
                  [["photos/a.jpg"]]).
  { repeat constructor. discriminate. }
  assert (Hp : Forall (packs easy_packer
                         (if negb ("s" =? os_sep)%string
                          then (args_path (with_package "photos")
                                ++ os_sep)%string
                          else args_path (with_package "photos")))
                 [["photos/a.jpg"]]).
  { repeat constructor. }
  split; [reflexivity|]. split; [reflexivity|]. split; [exact Hne|].
  split; [exact Hp|].
  apply (packagePhotos_empty_group easy_packer (with_package "photos")
           "s" [["photos/a.jpg"]] [["photos/b.jpg"]] ([], []));
    [reflexivity | reflexivity | exact Hne | exact Hp].
Defined.

(* ------------------------------------------------------------------ *)
(** ** Extraction, sort, grouping and report in a row *)

Lemma paths_getTimeShotList (w : World) (filenames : list string) :
  map fst (getTimeShotList w filenames) = filenames.
Proof.
  unfold getTimeShotList. rewrite map_map.
  induction filenames as [|f l IH]; [reflexivity|].
  cbn [map]. now rewrite IH, getTimeShot_classify.
Qed.

Lemma sorted_nonempty (l : list record) : l <> [] -> sorted l <> [].
Proof.
  intros Hl Hs. pose proof (sorted_perm l) as Hp. rewrite Hs in Hp.
  apply Permutation_nil in Hp. contradiction.
Qed.

(** X20: for a batch of at least one file, with the records as
    [getTimeShot] gives them where its handlers can log, and an integer
    threshold, the sort followed by [sortPhotos] returns groups that, one
    after the other, are the files in ascending order of their time stamps,
    a rearrangement of the batch in which every file occurs as often as in
    the batch; no group is empty; and [exportResult] without [-e] and with
    a default path that can be written puts exactly these groups into the
    report. *)
Theorem pipeline_partition (w : World) (args : Args)
    (filenames : list string) :
  filenames <> [] ->
  exists grouped : list (list string),
    sortPhotos args (sorted (getTimeShotList w filenames)) = Ok grouped /\
    concat grouped = map fst (sorted (getTimeShotList w filenames)) /\
    Permutation (concat grouped) filenames /\
    Forall (fun group => group <> []) grouped /\
    forall (can_write : string -> bool) (fs : Files) (p : string),
      args_export args = None ->
      default_path args = Ok p ->
      can_write p = true ->
      exportResult can_write args grouped fs = Ok ((p, grouped) :: fs).
Proof.
  intros Hne.
  destruct (sorted (getTimeShotList w filenames)) as [|r rest] eqn:Hs.
  { apply sorted_nonempty in Hs; [contradiction|].
    intros H. apply (f_equal (map fst)) in H.
    rewrite paths_getTimeShotList in H. contradiction. }
  exists (clusters (args_threshold args) [] r rest).
  pose proof (concat_clusters (args_threshold args) rest [] r) as Hc.
  cbn [app] in Hc.
  split; [apply sortPhotos_clusters|]. split; [exact Hc|]. split; [|split].
  - rewrite Hc, <- Hs, (Permutation_map fst (sorted_perm _)).
    now rewrite paths_getTimeShotList.
  - apply clusters_nonempty.
  - intros can_write fs p He Hp Hw. now apply exportResult_default.
Qed.

Lemma pipeline_partition_witness :
  ["b2.jpg"; "notes.jpg"; "b0.jpg"; "b1.jpg"] <> [] /\
  exists grouped : list (list string),
    sortPhotos (with_threshold 3)
      (sorted (getTimeShotList sample_world
                 ["b2.jpg"; "notes.jpg"; "b0.jpg"; "b1.jpg"]))
    = Ok grouped /\
    concat grouped
    = map fst (sorted (getTimeShotList sample_world
                         ["b2.jpg"; "notes.jpg"; "b0.jpg"; "b1.jpg"])) /\
    Permutation (concat grouped)
      ["b2.jpg"; "notes.jpg"; "b0.jpg"; "b1.jpg"] /\
    Forall (fun group => group <> []) grouped /\
    forall (can_write : string -> bool) (fs : Files) (p : string),
      args_export (with_threshold 3) = None ->
      default_path (with_threshold 3) = Ok p ->
      can_write p = true ->
      exportResult can_write (with_threshold 3) grouped fs
      = Ok ((p, grouped) :: fs).
Proof.
  split; [discriminate|].
  apply (pipeline_partition sample_world (with_threshold 3)
           ["b2.jpg"; "notes.jpg"; "b0.jpg"; "b1.jpg"]).
  discriminate.
Defined.

Example pipeline_partition_run :
  sortPhotos (with_threshold 3)
    (sorted (getTimeShotList sample_world
               ["b2.jpg"; "notes.jpg"; "b0.jpg"; "b1.jpg"]))
  = Ok [["notes.jpg"]; ["b0.jpg"; "b1.jpg"]; ["b2.jpg"]].
Proof. reflexivity. Qed.

(** X14: The name a file gets inside its archive is the name it has in the
    listing: for a listing of plain names, every path [getFileList]
    returns is the directory name followed by its own last component, and
    that component is a name of the listing. *)
Theorem getFileList_basename (walk : string -> list string) (d : string) :
  NoDup (walk (d ++ os_sep)%string) ->
  Forall no_sep (walk (d ++ os_sep)%string) ->
  exists fileList : list string,
    getFileList walk (d ++ os_sep)%string = Ok fileList /\
    forall file : string,
      In file fileList ->
      In (basename file) (walk (d ++ os_sep)%string) /\
      file = ((d ++ os_sep) ++ basename file)%string.
Proof.
  intros Hnd Hns.
  rewrite (getFileList_dir walk _ (str_getitem_sep d) Hnd).
  destruct (sweep_props (length (walk (d ++ os_sep)%string))
              (walk (d ++ os_sep)%string) (le_n _)) as (S1 & _ & _).
  eexists. split; [reflexivity|].
  intros file Hf. apply in_map_iff in Hf. destruct Hf as (name & <- & Hin).
  apply S1 in Hin. rewrite Forall_forall in Hns.
  assert (Hb : basename ((d ++ os_sep) ++ name)%string = name)
    by (rewrite append_assoc; apply basename_app, Hns, Hin).
  rewrite Hb. now split.
Qed.

Lemma getFileList_basename_witness :
  NoDup (sample_walk ("photos" ++ os_sep)%string) /\
  Forall no_sep (sample_walk ("photos" ++ os_sep)%string) /\
  exists fileList : list string,
    getFileList sample_walk ("photos" ++ os_sep)%string = Ok fileList /\
    forall file : string,
      In file fileList ->
      In (basename file) (sample_walk ("photos" ++ os_sep)%string) /\
      file = (("photos" ++ os_sep) ++ basename file)%string.
Proof.
  assert (Hns : Forall no_sep (sample_walk ("photos" ++ os_sep)%string)).
  { repeat constructor; discriminate. }
  split; [apply sample_walk_NoDup|]. split; [exact Hns|].
  apply (getFileList_basename sample_walk "photos");
    [apply sample_walk_NoDup | exact Hns].
Defined.

(* ------------------------------------------------------------------ *)
(** ** Sort and grouping together *)



(** X24: When no two files have the same time stamp, the order in which the
    files were listed does not reach the result: every rearrangement of
    the list of files gives the same groups. *)
Theorem pipeline_order_independent (w : World) (args : Args)
    (filenames filenames' : list string) :
  Permutation filenames filenames' ->
  NoDup (map snd (getTimeShotList w filenames)) ->
  sortPhotos args (sorted (getTimeShotList w filenames))
  = sortPhotos args (sorted (getTimeShotList w filenames')).
Proof.
  intros Hp Hnd. f_equal. apply sorted_perm_invariant; [|exact Hnd].
  unfold getTimeShotList. now apply Permutation_map.
Qed.

Lemma pipeline_order_independent_witness :
  Permutation ["b2.jpg"; "notes.jpg"; "b0.jpg"]
    ["notes.jpg"; "b2.jpg"; "b0.jpg"] /\
  NoDup (map snd (getTimeShotList sample_world
                    ["b2.jpg"; "notes.jpg"; "b0.jpg"])) /\
  sortPhotos (with_threshold 3)
    (sorted (getTimeShotList sample_world
               ["b2.jpg"; "notes.jpg"; "b0.jpg"]))
  = sortPhotos (with_threshold 3)
      (sorted (getTimeShotList sample_world
                 ["notes.jpg"; "b2.jpg"; "b0.jpg"])).
Proof.
  assert (Hnd : NoDup (map snd (getTimeShotList sample_world
                                  ["b2.jpg"; "notes.jpg"; "b0.jpg"]))).
  { cbn. repeat constructor; cbn; intuition discriminate. }
  split; [apply perm_swap|]. split; [exact Hnd|].
  apply (pipeline_order_independent sample_world (with_threshold 3)
           ["b2.jpg"; "notes.jpg"; "b0.jpg"]
           ["notes.jpg"; "b2.jpg"; "b0.jpg"]);
    [apply perm_swap | exact Hnd].
Defined.
